(** * simple_irc: the line transformer, the message parser and the protocol core

    A shallow embedding of [src/RxSocket.ts] and [src/RxIRCClient.ts].

    - A JavaScript string is the list of its code units; the program only
      ever inspects the units LF, CR, space and colon, every other unit is
      opaque to it. A chunk of [data$] is the text [data.toString()] gives
      for it.
    - An observable is the finite list of the values it has emitted so far,
      in emission order; [scan], [filter] and [flatMap] over synchronous
      inner observables are the corresponding list functions.
    - The socket is the log of the strings written to it. *)

From Stdlib Require Import Ascii String.
From Stdlib Require Import List Arith ZArith Lia Bool.
From Equations Require Import Equations.
From Equations.Prop Require Import Logic.
Import ListNotations.

(** ** The JavaScript operations the program uses *)

Module JS.

Definition jsstring := list ascii.

(** A string literal of the source. *)
Definition lit (s : string) : jsstring := list_ascii_of_string s.

Definition LF : ascii := "010"%char.
Definition CR : ascii := "013"%char.
Definition SP : ascii := " "%char.

(** [a === b] on strings. *)
Fixpoint streq (a b : jsstring) : bool :=
  match a, b with
  | [], [] => true
  | x :: a', y :: b' => Ascii.eqb x y && streq a' b'
  | _, _ => false
  end.

(** [Array.prototype.slice(start, end)]: a negative index counts from the
    end, both indices are clamped to [0, length], [end] defaults to the
    length. *)
Definition relativeIndex (len i : Z) : Z :=
  if (i <? 0)%Z then Z.max (len + i) 0 else Z.min i len.

Definition slice {A} (l : list A) (start : Z) (stop : option Z) : list A :=
  let len := Z.of_nat (length l) in
  let k := relativeIndex len start in
  let final := match stop with None => len | Some e => relativeIndex len e end in
  firstn (Z.to_nat (final - k)) (skipn (Z.to_nat k) l).

(** [Array.prototype.join(sep)] on an array of strings. *)
Fixpoint join (sep : jsstring) (l : list jsstring) : jsstring :=
  match l with
  | [] => []
  | [x] => x
  | x :: l' => x ++ sep ++ join sep l'
  end.

(** [String.prototype.endsWith]. *)
Definition endsWith (s suffix : jsstring) : bool :=
  if length s <? length suffix then false
  else streq (skipn (length s - length suffix) s) suffix.

(** *** Regular expressions

    The fragment of the regular-expression syntax that occurs in the source,
    with the backtracking semantics of the language: alternatives are tried
    left to right, [?] and [+] are greedy, and a match is the first success
    of this search. Without the [m] flag [$] matches at the end of the
    input only. There is no look-behind, so the text still to be read
    determines every match. *)

Inductive regex : Type :=
| Chr (c : ascii)              (* a literal character *)
| NotChr (c : ascii)           (* the class [^c] *)
| EndAnchor                    (* $ *)
| Cat (r1 r2 : regex)          (* r1r2 *)
| Alt (r1 r2 : regex)          (* r1|r2 *)
| Opt (r : regex)              (* r? *)
| Plus (r : regex).            (* r+ *)

(** A continuation receives the text left after the part matched so far and
    answers with the text left after the whole match, if it can be
    completed. *)
Definition cont := jsstring -> option jsstring.

Definition orElse {A} (a b : option A) : option A :=
  match a with Some _ => a | None => b end.

(** Greedy iteration [r*] of a matcher [mr]: another round of [mr] is tried
    first, a round that consumes nothing is rejected, and only when no
    further round leads to a match the continuation is tried here. Every
    accepted round shortens the text, so [length s] rounds are enough. *)
Fixpoint star_iter (mr : jsstring -> cont -> option jsstring) (fuel : nat)
    (s : jsstring) (k : cont) : option jsstring :=
  match fuel with
  | 0 => k s
  | S fuel' =>
      orElse
        (mr s (fun s' =>
                 if length s' <? length s then star_iter mr fuel' s' k else None))
        (k s)
  end.

Fixpoint rmatch (r : regex) (s : jsstring) (k : cont) : option jsstring :=
  match r with
  | Chr c =>
      match s with
      | x :: s' => if Ascii.eqb x c then k s' else None
      | [] => None
      end
  | NotChr c =>
      match s with
      | x :: s' => if Ascii.eqb x c then None else k s'
      | [] => None
      end
  | EndAnchor => match s with [] => k [] | _ :: _ => None end
  | Cat r1 r2 => rmatch r1 s (fun s' => rmatch r2 s' k)
  | Alt r1 r2 => orElse (rmatch r1 s k) (rmatch r2 s k)
  | Opt r1 => orElse (rmatch r1 s k) (k s)
  | Plus r1 => rmatch r1 s (fun s' => star_iter (rmatch r1) (length s') s' k)
  end.

(** The match of [r] that starts at the beginning of [s]: the text left
    after it. *)
Definition matchAt (r : regex) (s : jsstring) : option jsstring :=
  rmatch r s Some.

(** The matches of a global ([g]) regular expression, left to right: the
    search resumes where the previous match ended, one unit further after an
    empty match, and the end of the input is a position too. *)
Equations? matches (r : regex) (s : jsstring) : list jsstring
  by wf (length s) lt :=
  matches r [] with matchAt r [] => {
    | Some _ := [[]];
    | None := [] };
  matches r (c :: s') with matchAt r (c :: s') => {
    | Some rest :=
        let n := length (c :: s') - length rest in
        firstn n (c :: s') :: matches r (skipn (Nat.pred (Nat.max n 1)) s');
    | None := matches r s' }.
Proof.
  all: try rewrite length_skipn; simpl; lia.
Qed.

(** [String.prototype.match] with a global regular expression: the array of
    the matched texts, or [null] when there is none. *)
Definition String_match (s : jsstring) (r : regex) : option (list jsstring) :=
  match matches r s with
  | [] => None
  | l => Some l
  end.

(** [String.prototype.replace] with a global regular expression and a
    replacement text without [$] patterns: every match is replaced, the text
    between the matches is kept. *)
Equations? String_replace (s : jsstring) (r : regex) (by_ : jsstring) : jsstring
  by wf (length s) lt :=
  String_replace [] r by_ with matchAt r [] => {
    | Some _ := by_;
    | None := [] };
  String_replace (c :: s') r by_ with matchAt r (c :: s') => {
    | Some rest with length (c :: s') - length rest => {
        | 0 := by_ ++ c :: String_replace s' r by_;
        | S n := by_ ++ String_replace (skipn n s') r by_ };
    | None := c :: String_replace s' r by_ }.
Proof.
  all: try rewrite length_skipn; simpl; lia.
Qed.

End JS.

Import JS.

(** ** RxSocket.ts: the line transformer *)

Module RxSocket.

Record LineBuffer : Type := {
  complete : list jsstring;
  incomplete : jsstring
}.

(** [/[^\n]+(?:\r?\n|$)/g] *)
Definition line_re : regex :=
  Cat (Plus (NotChr LF)) (Alt (Cat (Opt (Chr CR)) (Chr LF)) EndAnchor).

(** [/\r?\n$/g] *)
Definition terminator_re : regex :=
  Cat (Opt (Chr CR)) (Cat (Chr LF) EndAnchor).

Definition trimTerminator (str : jsstring) : jsstring :=
  String_replace str terminator_re [].

(** The accumulator function given to [scan]. A chunk is modelled after
    [data.toString()]. *)
Definition accumulate (buffer : LineBuffer) (data : jsstring) : LineBuffer :=
  let incomplete' := incomplete buffer ++ data in
  let lines :=
    match String_match incomplete' line_re with Some l => l | None => [] end in
  if length lines =? 0 then {| complete := []; incomplete := [] |}
  else
    let lastLineComplete := endsWith (nth (length lines - 1) lines []) [LF] in
    if lastLineComplete
    then {| complete := map trimTerminator lines; incomplete := [] |}
    else {| complete :=
              map trimTerminator
                (slice lines 0 (Some (Z.of_nat (length lines) - 1)%Z));
            incomplete := nth (length lines - 1) lines [] |}.

Definition seed : LineBuffer := {| complete := []; incomplete := [] |}.

(** [scan(f, seed)]: the accumulated value after each source value. *)
Fixpoint scan {A B} (f : B -> A -> B) (acc : B) (xs : list A) : list B :=
  match xs with
  | [] => []
  | x :: xs' => let acc' := f acc x in acc' :: scan f acc' xs'
  end.

(** [lines$] over the chunks emitted by [data$]. *)
Definition lines (data : list jsstring) : list jsstring :=
  flat_map complete (scan accumulate seed data).

(** The events of [net.Socket] the wrapper listens to. *)
Inductive SocketEvent : Type :=
| ConnectEvent
| DataEvent (data : jsstring).

(** [data$]: every ["data"] event goes to the subscriber. *)
Definition data_of (events : list SocketEvent) : list jsstring :=
  flat_map (fun e => match e with DataEvent d => [d] | ConnectEvent => [] end)
           events.

(** [socket.once("connect", ...)]: the listener is removed when it has run;
    [armed] tells whether it is still registered. *)
Fixpoint onceConnect (armed : bool) (events : list SocketEvent) : list bool :=
  match events with
  | [] => []
  | ConnectEvent :: events' =>
      if armed then true :: onceConnect false events'
      else onceConnect false events'
  | DataEvent _ :: events' => onceConnect armed events'
  end.

(** [connected$]: a behavior subject that starts at [false]. *)
Definition connected (events : list SocketEvent) : list bool :=
  false :: onceConnect true events.

End RxSocket.

Import RxSocket.

(** ** RxIRCClient.ts: messages and the parser *)

Module RxIRCClient.

Record Options : Type := {
  hostname : jsstring;
  username : jsstring;
  port : Z;
  nick : jsstring;
  realName : jsstring
}.

(** [prefix?: string] is [None] when it is [undefined]. *)
Record IRCMessage : Type := {
  prefix : option jsstring;
  command : jsstring;
  params : list jsstring
}.

Definition set_prefix (m : IRCMessage) (p : option jsstring) : IRCMessage :=
  {| prefix := p; command := command m; params := params m |}.

Definition set_command (m : IRCMessage) (c : jsstring) : IRCMessage :=
  {| prefix := prefix m; command := c; params := params m |}.

(** [message.params.push(p)] *)
Definition push_param (m : IRCMessage) (p : jsstring) : IRCMessage :=
  {| prefix := prefix m; command := command m; params := params m ++ [p] |}.

(** *** The scanning functions of [parseIRCMessage]

    They are closures over the line and over the cursor [index], which they
    read and advance: a computation in the state monad of the cursor. *)

Definition Scan (A : Type) : Type := nat -> A * nat.

Definition ret {A} (a : A) : Scan A := fun index => (a, index).

Definition bind {A B} (m : Scan A) (k : A -> Scan B) : Scan B :=
  fun index => let (a, index') := m index in k a index'.

Notation "x <- m ;; k" := (bind m (fun x => k))
  (at level 61, m at next level, right associativity).

Section Scanner.

Variable line : jsstring.

Definition peekNext : Scan jsstring :=
  fun index =>
    if length line <=? index then ([], index)
    else ([nth index line zero], index).

Definition scanNext : Scan jsstring :=
  c <- peekNext ;;
  fun index => (c, if index <? length line then index + 1 else index).

Definition skip (c : jsstring) : Scan bool :=
  next <- peekNext ;;
  if streq next c then _ <- scanNext ;; ret true else ret false.

Definition isEOF : Scan bool :=
  fun index => (length line <=? index, index).

(** The test that ends the loop of [scanWhile] at the cursor. *)
Definition scanStops (pred_ : jsstring -> bool) (index : nat) : bool :=
  let char := fst (peekNext index) in
  streq char [] || negb (pred_ char).

Lemma peekNext_in_range index :
  index < length line -> peekNext index = ([nth index line zero], index).
Proof.
  intros H. unfold peekNext.
  destruct (Nat.leb_spec (length line) index); [lia | reflexivity].
Qed.

Lemma scanNext_in_range index :
  index < length line -> scanNext index = ([nth index line zero], index + 1).
Proof.
  intros H. unfold scanNext, bind. rewrite (peekNext_in_range _ H).
  destruct (Nat.ltb_spec index (length line)); [reflexivity | lia].
Qed.

Lemma scanStops_false_in_range pred_ index :
  scanStops pred_ index = false -> index < length line.
Proof.
  unfold scanStops, peekNext.
  destruct (Nat.leb_spec (length line) index); simpl; [discriminate | lia].
Qed.

(** The loop of [scanWhile], with [result] the text scanned so far. *)
Equations? scanWhile_loop (pred_ : jsstring -> bool) (result : jsstring)
    (index : nat) : jsstring * nat by wf (length line - index) lt :=
  scanWhile_loop pred_ result index with inspect (scanStops pred_ index) => {
    | exist _ true _ := (result, index);
    | exist _ false e :=
        let char := fst (peekNext index) in
        scanWhile_loop pred_ (result ++ char) (snd (scanNext index)) }.
Proof.
  apply scanStops_false_in_range in e.
  rewrite (scanNext_in_range _ e). simpl. lia.
Qed.

Definition scanWhile (pred_ : jsstring -> bool) : Scan jsstring :=
  scanWhile_loop pred_ [].

Definition skipSpaces : Scan bool :=
  spaces <- scanWhile (fun c => streq c (lit " ")) ;;
  ret (0 <? length spaces).

(** Where [scanWhile] leaves the cursor: not before where it found it, and
    at a place where its loop stops. *)
Lemma scanWhile_loop_cursor pred_ result index :
  index <= snd (scanWhile_loop pred_ result index) /\
  scanStops pred_ (snd (scanWhile_loop pred_ result index)) = true.
Proof.
  funelim (scanWhile_loop pred_ result index).
  - simpl. auto.
  - destruct H as [Hle Hstop]. split; [| exact Hstop].
    pose proof (scanStops_false_in_range _ _ e) as Hin.
    rewrite (scanNext_in_range _ Hin) in *. simpl in *. lia.
Qed.

(** *** The parameter loop *)

(** One round of the [while (true)] loop: whether it returns, and the
    message as it stands after the round. *)
Definition paramIteration (message : IRCMessage) : Scan (bool * IRCMessage) :=
  colon <- skip (lit ":") ;;
  if colon
  then
    trailing <- scanWhile (fun _ => true) ;;
    ret (true, push_param message trailing)
  else
    param <- scanWhile (fun c => negb (streq c (lit " "))) ;;
    _ <- skipSpaces ;;
    eof <- isEOF ;;
    ret (eof, push_param message param).

(** A round that does not return leaves the cursor further on, and still
    inside the line. *)
Lemma paramIteration_progress message index m index' :
  paramIteration message index = ((false, m), index') ->
  index < index' < length line.
Proof.
  unfold paramIteration, skip, skipSpaces, scanWhile, isEOF, ret, bind.
  destruct (peekNext index) as [next i0] eqn:Hpeek.
  assert (i0 = index) as ->.
  { unfold peekNext in Hpeek.
    destruct (length line <=? index); inversion Hpeek; reflexivity. }
  destruct (streq next (lit ":")).
  - destruct (scanNext index) as [c i1].
    destruct (scanWhile_loop (fun _ => true) [] i1). simpl. discriminate.
  - pose proof (scanWhile_loop_cursor
                  (fun c => negb (streq c (lit " "))) [] index) as [Hle1 Hstop1].
    destruct (scanWhile_loop (fun c => negb (streq c (lit " "))) [] index)
      as [param i1]; simpl in Hle1, Hstop1.
    pose proof (scanWhile_loop_cursor
                  (fun c => streq c (lit " ")) [] i1) as [Hle2 Hstop2].
    destruct (scanWhile_loop (fun c => streq c (lit " ")) [] i1)
      as [spaces i2]; simpl in Hle2, Hstop2.
    simpl. intros H; inversion H; subst; clear H.
    match goal with H : (length line <=? _) = false |- _ =>
      apply Nat.leb_gt in H; rename H into Hin end.
    split; [| exact Hin].
    destruct (Nat.eq_dec index' index) as [-> | Hne]; [| lia].
    assert (i1 = index) as -> by lia.
    unfold scanStops, peekNext in Hstop1, Hstop2.
    destruct (Nat.leb_spec (length line) index); [lia |].
    simpl in Hstop1, Hstop2.
    destruct (Ascii.eqb (nth index line zero) " "%char);
      simpl in Hstop1, Hstop2; discriminate.
Qed.

Equations? paramLoop (message : IRCMessage) (index : nat) : IRCMessage
  by wf (length line - index) lt :=
  paramLoop message index with inspect (paramIteration message index) => {
    | exist _ ((true, m), _) _ := m;
    | exist _ ((false, m), index') e := paramLoop m index' }.
Proof.
  apply paramIteration_progress in e. lia.
Qed.

(** *** The three parts of the parser *)

(** [// Parse prefix]: whether the parser returns here, and the message. *)
Definition parsePrefix (message : IRCMessage) : Scan (bool * IRCMessage) :=
  colon <- skip (lit ":") ;;
  if colon
  then
    p <- scanWhile (fun c => negb (streq c (lit " "))) ;;
    spaces <- skipSpaces ;;
    ret (negb spaces, set_prefix message (Some p))
  else ret (false, message).

(** [// Parse command name or number] *)
Definition parseCommand (message : IRCMessage) : Scan (bool * IRCMessage) :=
  c <- scanWhile (fun c => negb (streq c (lit " "))) ;;
  spaces <- skipSpaces ;;
  ret (negb spaces, set_command message c).

(** [// Parse parameters] *)
Definition parseParams (message : IRCMessage) : Scan IRCMessage :=
  fun index => (paramLoop message index, index).

End Scanner.

(** [parseIRCMessage(line): IRCMessage | undefined]; [None] is
    [undefined]. *)
Definition parseIRCMessage (line : jsstring) : option IRCMessage :=
  let message := {| prefix := None; command := []; params := [] |} in
  fst ((r <- parsePrefix line message ;;
        if fst r then ret (Some (snd r))
        else
          r <- parseCommand line (snd r) ;;
          if fst r then ret (Some (snd r))
          else
            m <- parseParams line (snd r) ;;
            ret (Some m)) 0).

(** ** RxIRCClient.ts: the protocol core *)

(** The socket of the client, seen from the client: the data given to
    [socket.write$.next], oldest first. *)
Definition Socket : Type := list jsstring.

Definition write_next (data : jsstring) (socket : Socket) : Socket :=
  socket ++ [data].

(** The text [data] that [send$.next] builds from a message. *)
Definition send_data (message : IRCMessage) : jsstring :=
  let paramCount := Z.of_nat (length (params message)) in
  (command message ++ lit " "
     ++ join (lit " ") (slice (params message) 0 (Some (paramCount - 1)%Z))
     ++ lit " ")
  ++ (lit ":"
        ++ join (lit " ") (slice (params message) (paramCount - 1)%Z None)
        ++ [CR; LF]).

(** [send$.next] *)
Definition send_next (message : IRCMessage) (socket : Socket) : Socket :=
  write_next (send_data message) socket.

(** [send$.complete] and [send$.error] *)
Definition send_complete (socket : Socket) : Socket :=
  write_next (lit "QUIT :Leaving" ++ [CR; LF]) socket.

Definition send_error (socket : Socket) : Socket :=
  write_next (lit "QUIT :Error" ++ [CR; LF]) socket.

Definition send (message : IRCMessage) (socket : Socket) : Socket :=
  send_next message socket.

Definition userMessage (options : Options) : IRCMessage :=
  {| prefix := None;
     command := lit "USER";
     params := [username options; lit "."; lit "."; realName options] |}.

Definition nickMessage (options : Options) : IRCMessage :=
  {| prefix := None; command := lit "NICK"; params := [nick options] |}.

Definition sendUserAndNick (options : Options) (socket : Socket) : Socket :=
  let socket := send (userMessage options) socket in
  send (nickMessage options) socket.

(** [handleIRCProtocol], first subscription: the observer of
    [connected$.pipe(filter(x => x))]. *)
Definition connectedNext (options : Options) (x : bool) (socket : Socket)
  : Socket :=
  if x then sendUserAndNick options socket else socket.

Definition pongMessage (message : IRCMessage) : IRCMessage :=
  {| prefix := None; command := lit "PONG"; params := params message |}.

(** [handleIRCProtocol], second subscription: the observer of [messages$]. *)
Definition messageNext (message : IRCMessage) (socket : Socket) : Socket :=
  if streq (command message) (lit "PING")
  then send (pongMessage message) socket
  else socket.

(** The socket after the handshake observer has seen a whole signal. *)
Definition handshake (options : Options) (signal : list bool)
    (socket : Socket) : Socket :=
  fold_left (fun socket x => connectedNext options x socket) signal socket.

(** The socket after the keep-alive observer has seen the inbound
    messages. *)
Definition keepAlive (inbound : list IRCMessage) (socket : Socket) : Socket :=
  fold_left (fun socket message => messageNext message socket) inbound socket.

(** The projection of [messages$]: a line whose parse is [undefined] gives
    the empty observable. *)
Definition parsedLine (line : jsstring) : list IRCMessage :=
  match parseIRCMessage line with
  | None => []
  | Some message => [message]
  end.

(** [messages$] over the complete lines. *)
Definition messages_of_lines (ls : list jsstring) : list IRCMessage :=
  flat_map parsedLine ls.

(** [messages$] over the chunks of [data$]. *)
Definition messages (data : list jsstring) : list IRCMessage :=
  messages_of_lines (lines data).

Definition commandStream (command_ : jsstring) (inbound : list IRCMessage)
  : list IRCMessage :=
  filter (fun message => streq (command message) command_) inbound.

End RxIRCClient.

Import RxIRCClient.

(** ** RxIRCClient.ts: the channel view *)

Module RxIRCChannel.

Section Channel.

(** [String.prototype.toLowerCase], which the view uses as it is. *)
Variable toLowerCase : jsstring -> jsstring.

(** The predicate given to [filter] in the constructor. *)
Definition channelFilter (channel : jsstring) (message : IRCMessage) : bool :=
  (0 <? length (params message))
  && streq (toLowerCase (nth 0 (params message) []))
           (toLowerCase channel).

Definition messages (channel : jsstring) (inbound : list IRCMessage)
  : list IRCMessage :=
  filter (channelFilter channel) inbound.

End Channel.

Definition join (channel : jsstring) (socket : Socket) : Socket :=
  send {| prefix := None; command := lit "JOIN"; params := [channel] |} socket.

Definition sendPrivMsg (channel message : jsstring) (socket : Socket)
  : Socket :=
  send {| prefix := None; command := lit "PRIVMSG";
          params := [channel; message] |} socket.

(** [toLowerCase] on the letters A to Z, for running the view on texts
    without other cased letters. *)
Definition lowerUnit (c : ascii) : ascii :=
  let n := nat_of_ascii c in
  if (65 <=? n) && (n <=? 90) then ascii_of_nat (n + 32) else c.

Definition asciiLower (s : jsstring) : jsstring := map lowerUnit s.

End RxIRCChannel.


(** * Reference functions of the statements *)

(** A text without LF. *)
Definition noLF (s : jsstring) : Prop := Forall (fun c => c <> LF) s.

(** A line with its terminator: a text without LF, then LF. *)
Definition completeLine (l : jsstring) : Prop :=
  exists body, l = body ++ [LF] /\ noLF body.

(** The unterminated rest of a text as a list of lines: no line when it is
    empty. *)
Definition unterminated (r : jsstring) : list jsstring :=
  match r with [] => [] | _ :: _ => [r] end.

(** The line of [n] spaces. *)
Definition blank (n : nat) : jsstring := repeat SP n.

(** The complete lines of a text, each with its terminator, and the
    unterminated rest, read unit by unit; [cur] is the line being read. An LF
    that ends no line (nothing was read since the previous one) is passed
    over. *)
Fixpoint splitLines (cur s : jsstring) : list jsstring * jsstring :=
  match s with
  | [] => ([], cur)
  | c :: s' =>
      if Ascii.eqb c LF
      then
        match cur with
        | [] => splitLines [] s'
        | _ :: _ =>
            let (ls, r) := splitLines [] s' in ((cur ++ [LF]) :: ls, r)
        end
      else splitLines (cur ++ [c]) s'
  end.

(** The text without the LFs that end no line: those at the very beginning
    and those that directly follow another LF. [inLine] tells whether the
    unit before is part of a line. *)
Fixpoint withoutBlankLines (inLine : bool) (s : jsstring) : jsstring :=
  match s with
  | [] => []
  | c :: s' =>
      if Ascii.eqb c LF
      then if inLine then LF :: withoutBlankLines false s'
           else withoutBlankLines false s'
      else c :: withoutBlankLines true s'
  end.

(** A line without its LF, and without the CR before it if there is
    one. *)
Fixpoint stripCR (body : jsstring) : jsstring :=
  match body with
  | [] => []
  | [c] => if Ascii.eqb c CR then [] else [c]
  | c :: body' => c :: stripCR body'
  end.

(** The last accumulator of a [scan], the seed when nothing was
    scanned. *)
Definition lastState {A B} (f : B -> A -> B) (acc : B) (xs : list A) : B :=
  fold_left f xs acc.

(** Each emitted line followed by its terminator, one after the other. *)
Definition withTerminators (emitted terminators : list jsstring) : jsstring :=
  concat (map (fun p => fst p ++ snd p) (combine emitted terminators)).

Definition isTerminator (t : jsstring) : Prop := t = [LF] \/ t = [CR; LF].

(** The invariant of the accumulator after the chunks [data], with
    [received] what the chunks are held to amount to: the lines emitted so
    far, each with a terminator, then [incomplete], give [received]. *)
Definition restoresTo (data : list jsstring) (received : jsstring) : Prop :=
  exists terminators,
    length terminators = length (lines data) /\
    Forall isTerminator terminators /\
    withTerminators (lines data) terminators
      ++ incomplete (lastState accumulate seed data) = received.

(** The line [COMMAND p0 p1 ... :pLast\r\n]: the command, the parameters
    before the last and the last parameter behind a colon, as words with a
    single space between one and the next. *)
Definition trailingFormLine (message : IRCMessage) : jsstring :=
  join (lit " ")
       (command message
          :: removelast (params message)
          ++ [lit ":" ++ last (params message) []])
  ++ [CR; LF].

(** The two writes of the handshake. *)
Definition handshakeWrites (options : Options) : list jsstring :=
  [send_data (userMessage options); send_data (nickMessage options)].

(** The parameter loop cut after [fuel] rounds: [None] when it has not
    returned by then. *)
Fixpoint paramRounds (line : jsstring) (fuel : nat) (message : IRCMessage)
    (index : nat) : option IRCMessage :=
  match fuel with
  | 0 => None
  | S fuel' =>
      match paramIteration line message index with
      | ((true, m), _) => Some m
      | ((false, m), index') => paramRounds line fuel' m index'
      end
  end.

(** The lines [ls], each followed by [terminator], one after the other. *)
Definition framed (terminator : jsstring) (ls : list jsstring) : jsstring :=
  concat (map (fun l => l ++ terminator) ls).

Definition nonEmpty (s : jsstring) : bool :=
  match s with [] => false | _ :: _ => true end.

(** The units at the beginning of [s] that pass the test [p] of a
    [scanWhile], which is given a unit as a text of length one; and what
    follows them. *)
Fixpoint takeUnits (p : jsstring -> bool) (s : jsstring) : jsstring :=
  match s with
  | [] => []
  | c :: s' => if p [c] then c :: takeUnits p s' else []
  end.

Fixpoint dropUnits (p : jsstring -> bool) (s : jsstring) : jsstring :=
  match s with
  | [] => []
  | c :: s' => if p [c] then dropUnits p s' else s
  end.

(** The first unit of [s], if there is one, has the property [P]. *)
Definition headIs (P : ascii -> Prop) (s : jsstring) : Prop :=
  match s with [] => True | c :: _ => P c end.

(** The two tests the parser scans with. *)
Definition notSpace (c : jsstring) : bool := negb (streq c (lit " ")).
Definition isSpace (c : jsstring) : bool := streq c (lit " ").

(** A text without space. *)
Definition noSP (s : jsstring) : Prop := Forall (fun c => c <> SP) s.

(** A parameter that can stand before the last one, or a command: not
    empty, without space, not beginning with a colon. *)
Definition middle (t : jsstring) : Prop :=
  noSP t /\ exists c t', t = c :: t' /\ c <> ":"%char.

(** How a line ends after its spaced parameters: with nothing more, with a
    trailing parameter behind a colon, or with a last parameter that runs to
    the end of the line. *)
Inductive ending : Type :=
| NoMore
| Trailing (t : jsstring)
| LastToken (t : jsstring).

Definition endingText (e : ending) : jsstring :=
  match e with
  | NoMore => []
  | Trailing t => ":"%char :: t
  | LastToken t => t
  end.

Definition endingParams (e : ending) : list jsstring :=
  match e with
  | NoMore => []
  | Trailing t => [t]
  | LastToken t => [t]
  end.

Definition endingOK (e : ending) : Prop :=
  match e with
  | LastToken t => middle t
  | _ => True
  end.

(** Parameters, each followed by one or more spaces: [(t, k)] is [t] and
    [k + 1] spaces. *)
Definition spaced (toks : list (jsstring * nat)) : jsstring :=
  flat_map (fun tk => fst tk ++ repeat SP (S (snd tk))) toks.

(** A line of the protocol: an optional prefix behind a colon and one or
    more spaces after it, the command, one or more spaces, the spaced
    parameters and the ending. *)
Definition wireLine (p : option (jsstring * nat)) (cmd : jsstring) (k0 : nat)
    (toks : list (jsstring * nat)) (e : ending) : jsstring :=
  match p with
  | Some (pfx, kp) => ":"%char :: pfx ++ repeat SP (S kp)
  | None => []
  end ++ cmd ++ repeat SP (S k0) ++ spaced toks ++ endingText e.

(** The prefix of a line: the units between a colon at its beginning and
    the first space; and where the command begins: behind the prefix and
    the spaces after it, or at the beginning of a line without prefix. *)
Definition prefixOf (line : jsstring) : option jsstring :=
  match line with
  | c :: r => if Ascii.eqb c ":"%char then Some (takeUnits notSpace r) else None
  | [] => None
  end.

Definition afterPrefix (line : jsstring) : jsstring :=
  match line with
  | c :: r =>
      if Ascii.eqb c ":"%char
      then dropUnits isSpace (dropUnits notSpace r)
      else line
  | [] => []
  end.

(** The line that goes out for a message with the command [c], the
    parameters [init] and the last parameter [lastp], without its CR LF. *)
Definition sentLine (c : jsstring) (init : list jsstring) (lastp : jsstring)
  : jsstring :=
  wireLine None c (match init with [] => 1 | _ :: _ => 0 end)
           (map (fun t => (t, 0)) init) (Trailing lastp).

(** A message that can be sent and read back: the command and the
    parameters before the last are not empty, without space and without
    colon at the beginning; there is a last parameter; nothing holds an
    LF. *)
Definition sendable (m : IRCMessage) : Prop :=
  middle (command m) /\ noLF (command m) /\
  exists init lastp,
    params m = init ++ [lastp] /\
    Forall middle init /\ Forall noLF init /\ noLF lastp.

(** A message as the parser returns it for what was sent: without
    prefix. *)
Definition withoutPrefix (m : IRCMessage) : IRCMessage :=
  {| prefix := None; command := command m; params := params m |}.

Definition isConnect (e : SocketEvent) : bool :=
  match e with ConnectEvent => true | DataEvent _ => false end.

(** * Properties *)

(** ** The functions on concrete inputs *)

Example lines_terminator_across_chunks :
  lines [lit "ab" ++ [CR]; [LF] ++ lit "cd" ++ [LF; LF] ++ lit "e"] =
  [lit "ab"; lit "cd"].
Proof. vm_compute. reflexivity. Qed.

Example lines_buffered_until_terminated :
  lines [lit "abc"] = [] /\ lines [lit "abc"; lit "def" ++ [LF]] = [lit "abcdef"].
Proof. split; vm_compute; reflexivity. Qed.

Example lines_CRLF_alone : lines [[CR; LF]; [LF]] = [[]].
Proof. vm_compute. reflexivity. Qed.

Example parse_privmsg :
  parseIRCMessage (lit ":nick!user@host PRIVMSG #chan :hello world") =
  Some {| prefix := Some (lit "nick!user@host"); command := lit "PRIVMSG";
          params := [lit "#chan"; lit "hello world"] |}.
Proof. vm_compute. reflexivity. Qed.

Example parse_ping :
  parseIRCMessage (lit "PING :server.example.com") =
  Some {| prefix := None; command := lit "PING";
          params := [lit "server.example.com"] |}.
Proof. vm_compute. reflexivity. Qed.

Example parse_spaces_between_parameters :
  parseIRCMessage (lit "MODE  #chan   +o nick ") =
  Some {| prefix := None; command := lit "MODE";
          params := [lit "#chan"; lit "+o"; lit "nick"] |}.
Proof. vm_compute. reflexivity. Qed.

Example parse_prefix_alone :
  parseIRCMessage (lit ":server") =
  Some {| prefix := Some (lit "server"); command := []; params := [] |}.
Proof. vm_compute. reflexivity. Qed.

Example send_user :
  send {| prefix := None; command := lit "USER";
          params := [lit "u"; lit "."; lit "."; lit "Real Name"] |} [] =
  [lit "USER u . . :Real Name" ++ [CR; LF]].
Proof. vm_compute. reflexivity. Qed.

Example ping_over_the_wire :
  keepAlive (messages [lit "PING :a"; lit "bc" ++ [CR; LF] ++ lit "NOTICE x"])
            [] =
  [lit "PONG  :abc" ++ [CR; LF]].
Proof. vm_compute. reflexivity. Qed.

(** ** The two regular expressions of the line transformer *)

Section LineRegex.

Lemma eqb_LF_false c : c <> LF -> Ascii.eqb c LF = false.
Proof. intros H. apply Ascii.eqb_neq. exact H. Qed.

(** A text is a run without LF followed by nothing or by an LF. *)
Lemma run_decomposition (s : jsstring) :
  exists run tail,
    s = run ++ tail /\ noLF run /\ (tail = [] \/ exists rest, tail = LF :: rest).
Proof.
  induction s as [| c s IH].
  - exists [], []. split; [reflexivity | split; [constructor | now left]].
  - destruct (ascii_dec c LF) as [-> | Hc].
    + exists [], (LF :: s).
      split; [reflexivity | split; [constructor | right; now exists s]].
    + destruct IH as (run & tail & -> & Hrun & Htail).
      exists (c :: run), tail.
      split; [reflexivity | split; [constructor; assumption | exact Htail]].
Qed.

(** The greedy [[^\n]*] reads the whole run when the rest of the expression
    matches after it. *)
Lemma star_notLF_run run tail k x fuel :
  noLF run ->
  tail = [] \/ (exists rest, tail = LF :: rest) ->
  length run <= fuel ->
  k tail = Some x ->
  star_iter (rmatch (NotChr LF)) fuel (run ++ tail) k = Some x.
Proof.
  intros Hrun Htail. revert fuel.
  induction Hrun as [| c run Hc Hrun IH]; intros fuel Hfuel Hk; simpl.
  - destruct fuel as [| fuel]; simpl; [exact Hk |].
    destruct Htail as [-> | [rest ->]]; simpl; exact Hk.
  - destruct fuel as [| fuel]; simpl in *; [lia |].
    rewrite (eqb_LF_false _ Hc).
    destruct (Nat.ltb_spec (length (run ++ tail)) (S (length (run ++ tail))));
      [| lia].
    rewrite IH by (assumption || lia). reflexivity.
Qed.

Lemma matchAt_line_terminated c run rest :
  noLF (c :: run) -> matchAt line_re (c :: run ++ LF :: rest) = Some rest.
Proof.
  intros H. inversion H as [| ? ? Hc Hrun]; subst.
  unfold matchAt, line_re. simpl. rewrite (eqb_LF_false _ Hc).
  apply star_notLF_run with (tail := LF :: rest); auto.
  - right. now exists rest.
  - rewrite length_app. lia.
Qed.

Lemma matchAt_line_unterminated c run :
  noLF (c :: run) -> matchAt line_re (c :: run) = Some [].
Proof.
  intros H. inversion H as [| ? ? Hc Hrun]; subst.
  unfold matchAt, line_re. simpl. rewrite (eqb_LF_false _ Hc).
  rewrite <- (app_nil_r run) at 2.
  apply star_notLF_run; auto.
Qed.

Lemma matchAt_line_LF s : matchAt line_re (LF :: s) = None.
Proof. reflexivity. Qed.

Lemma matchAt_line_nil : matchAt line_re [] = None.
Proof. reflexivity. Qed.

End LineRegex.

(** ** The line transformer *)

Section LineTransformer.

Lemma firstn_length_app {A} (l l' : list A) :
  firstn (length l) (l ++ l') = l.
Proof.
  rewrite <- (Nat.add_0_r (length l)), firstn_app_2. simpl. apply app_nil_r.
Qed.

Lemma skipn_length_app {A} (l l' : list A) :
  skipn (length l) (l ++ l') = l'.
Proof.
  rewrite skipn_app, skipn_all, Nat.sub_diag. reflexivity.
Qed.

Lemma matches_nil r :
  matches r [] = match matchAt r [] with Some _ => [[]] | None => [] end.
Proof. simp matches. destruct (matchAt r []); reflexivity. Qed.

Lemma matches_cons r c s' :
  matches r (c :: s') =
  match matchAt r (c :: s') with
  | Some rest =>
      let n := length (c :: s') - length rest in
      firstn n (c :: s') :: matches r (skipn (Nat.pred (Nat.max n 1)) s')
  | None => matches r s'
  end.
Proof. simp matches. destruct (matchAt r (c :: s')); reflexivity. Qed.

Lemma splitLines_run cur run s :
  noLF run -> splitLines cur (run ++ s) = splitLines (cur ++ run) s.
Proof.
  intros H. revert cur.
  induction H as [| c run Hc Hrun IH]; intros cur; simpl.
  - rewrite app_nil_r. reflexivity.
  - rewrite (eqb_LF_false _ Hc), IH, <- app_assoc. reflexivity.
Qed.

(** What the global match of the line expression returns. *)
Lemma matches_line_re s :
  matches line_re s =
  fst (splitLines [] s) ++ unterminated (snd (splitLines [] s)).
Proof.
  remember (length s) as n eqn:Hn. revert s Hn.
  induction n as [n IH] using lt_wf_ind. intros s Hn.
  destruct (run_decomposition s) as (run & tail & -> & Hrun & Htail).
  destruct run as [| c run].
  - destruct Htail as [-> | [rest ->]]; simpl.
    + rewrite matches_nil. reflexivity.
    + rewrite matches_cons, matchAt_line_LF.
      apply (IH (length rest)); simpl in Hn; [lia | reflexivity].
  - rewrite (splitLines_run _ _ _ Hrun). simpl app at 2.
    destruct Htail as [-> | [rest ->]].
    + rewrite app_nil_r. simpl.
      rewrite matches_cons, (matchAt_line_unterminated _ _ Hrun).
      cbv zeta. simpl length. rewrite Nat.sub_0_r.
      replace (Nat.pred (Nat.max (S (length run)) 1)) with (length run) by lia.
      rewrite firstn_all2 by (simpl; lia).
      rewrite skipn_all, matches_nil. reflexivity.
    + simpl app at 1.
      rewrite matches_cons, (matchAt_line_terminated _ _ _ Hrun).
      cbv zeta. simpl length. rewrite length_app. simpl length.
      replace (S (length run + S (length rest)) - length rest)
        with (S (S (length run))) by lia.
      replace (Nat.pred (Nat.max (S (S (length run))) 1))
        with (length run + 1) by lia.
      replace (firstn (S (S (length run))) (c :: run ++ LF :: rest))
        with ((c :: run) ++ [LF]).
      2: { replace (c :: run ++ LF :: rest) with (((c :: run) ++ [LF]) ++ rest)
             by (simpl; rewrite <- app_assoc; reflexivity).
           replace (S (S (length run))) with (length ((c :: run) ++ [LF]))
             by (rewrite length_app; simpl; lia).
           symmetry. apply firstn_length_app. }
      replace (skipn (length run + 1) (run ++ LF :: rest)) with rest.
      2: { replace (run ++ LF :: rest) with ((run ++ [LF]) ++ rest)
             by (rewrite <- app_assoc; reflexivity).
           replace (length run + 1) with (length (run ++ [LF]))
             by (rewrite length_app; simpl; lia).
           symmetry. apply skipn_length_app. }
      rewrite (IH (length rest)) with (s := rest);
        [| rewrite length_app in Hn; simpl in Hn; lia | reflexivity].
      simpl. destruct (splitLines [] rest) as [ls r]. reflexivity.
Qed.

(** *** [slice] at the places the program uses it *)

Lemma relativeIndex_in_range len i :
  (0 <= i <= len)%Z -> relativeIndex len i = i.
Proof.
  intros H. unfold relativeIndex.
  destruct (Z.ltb_spec i 0); lia.
Qed.

Lemma slice_init {A} (l : list A) (x : A) :
  slice (l ++ [x]) 0 (Some (Z.of_nat (length (l ++ [x])) - 1)%Z) = l.
Proof.
  unfold slice. rewrite length_app. simpl length.
  rewrite !relativeIndex_in_range by lia. simpl skipn.
  replace (Z.to_nat (Z.of_nat (length l + 1) - 1 - 0)) with (length l) by lia.
  apply firstn_length_app.
Qed.

Lemma slice_last {A} (l : list A) (x : A) :
  slice (l ++ [x]) (Z.of_nat (length (l ++ [x])) - 1)%Z None = [x].
Proof.
  unfold slice. rewrite length_app. simpl length.
  rewrite !relativeIndex_in_range by lia.
  replace (Z.to_nat (Z.of_nat (length l + 1) - 1)) with (length l) by lia.
  rewrite skipn_length_app.
  replace (Z.to_nat (Z.of_nat (length l + 1) - (Z.of_nat (length l + 1) - 1)))
    with 1 by lia.
  reflexivity.
Qed.

(** *** The terminator expression *)

Lemma String_replace_nil r by_ :
  String_replace [] r by_ =
  match matchAt r [] with Some _ => by_ | None => [] end.
Proof. simp String_replace. destruct (matchAt r []); reflexivity. Qed.

Lemma String_replace_cons c s' r by_ :
  String_replace (c :: s') r by_ =
  match matchAt r (c :: s') with
  | Some rest =>
      match length (c :: s') - length rest with
      | 0 => by_ ++ c :: String_replace s' r by_
      | S n => by_ ++ String_replace (skipn n s') r by_
      end
  | None => c :: String_replace s' r by_
  end.
Proof.
  simp String_replace. destruct (matchAt r (c :: s')) as [rest |].
  - unfold String_replace_unfold_clause_2.
    destruct (length (c :: s') - length rest); reflexivity.
  - reflexivity.
Qed.

Lemma matchAt_terminator_inside c body :
  noLF (c :: body) -> (c <> CR \/ body <> []) ->
  matchAt terminator_re (c :: body ++ [LF]) = None.
Proof.
  intros H Hnot. inversion H as [| ? ? Hc Hbody]; subst.
  unfold matchAt, terminator_re. simpl. rewrite (eqb_LF_false _ Hc).
  destruct (Ascii.eqb_spec c CR) as [-> | Hcr]; [| reflexivity].
  destruct body as [| d body]; [destruct Hnot; congruence |].
  inversion Hbody as [| ? ? Hd _]; subst. simpl.
  rewrite (eqb_LF_false _ Hd). reflexivity.
Qed.

(** What [trimTerminator] does to a complete line. *)
Lemma trimTerminator_line body :
  noLF body -> trimTerminator (body ++ [LF]) = stripCR body.
Proof.
  unfold trimTerminator.
  induction body as [| c body IH]; intros H.
  - reflexivity.
  - inversion H as [| ? ? Hc Hbody]; subst.
    destruct body as [| d body].
    + destruct (Ascii.eqb_spec c CR) as [-> | Hcr].
      * reflexivity.
      * simpl app. rewrite String_replace_cons.
        pose proof (matchAt_terminator_inside c [] H (or_introl Hcr)) as E.
        simpl app in E. rewrite E.
        simpl stripCR. destruct (Ascii.eqb_spec c CR); [congruence |].
        reflexivity.
    + change ((c :: d :: body) ++ [LF]) with (c :: (d :: body) ++ [LF]).
      rewrite String_replace_cons.
      rewrite (matchAt_terminator_inside c (d :: body)) by
        (auto; right; discriminate).
      rewrite IH by assumption. reflexivity.
Qed.

Lemma stripCR_restore body :
  exists t, (t = [LF] \/ t = [CR; LF]) /\ stripCR body ++ t = body ++ [LF].
Proof.
  induction body as [| c body IH].
  - exists [LF]. auto.
  - destruct body as [| d body].
    + simpl. destruct (Ascii.eqb_spec c CR) as [-> | Hcr].
      * exists [CR; LF]. auto.
      * exists [LF]. auto.
    + destruct IH as (t & Ht & E). exists t. split; [exact Ht |].
      change (stripCR (c :: d :: body)) with (c :: stripCR (d :: body)).
      simpl. simpl in E. rewrite E. reflexivity.
Qed.

(** *** One step of the accumulator *)

Lemma noLF_app a b : noLF a -> noLF b -> noLF (a ++ b).
Proof. intros Ha Hb. apply Forall_app. split; assumption. Qed.

Lemma splitLines_shape s : forall cur,
  noLF cur ->
  Forall completeLine (fst (splitLines cur s)) /\
  noLF (snd (splitLines cur s)).
Proof.
  induction s as [| c s IH]; intros cur Hcur; simpl.
  - split; [constructor | exact Hcur].
  - destruct (Ascii.eqb_spec c LF) as [-> | Hc].
    + destruct (IH [] (Forall_nil _)) as [Hls Hr].
      destruct cur as [| d cur]; [split; assumption |].
      destruct (splitLines [] s) as [ls r]. simpl in *.
      split; [| exact Hr].
      constructor; [| exact Hls]. exists (d :: cur). split; auto.
    + apply IH. apply noLF_app; [exact Hcur |].
      constructor; [exact Hc | constructor].
Qed.

Lemma endsWith_LF_complete l : completeLine l -> endsWith l [LF] = true.
Proof.
  intros (body & -> & _). unfold endsWith. rewrite length_app. simpl length.
  destruct (Nat.ltb_spec (length body + 1) 1); [lia |].
  replace (length body + 1 - 1) with (length body) by lia.
  rewrite skipn_length_app. reflexivity.
Qed.

Lemma endsWith_LF_noLF r : noLF r -> endsWith r [LF] = false.
Proof.
  intros H. unfold endsWith. simpl length.
  destruct (Nat.ltb_spec (length r) 1); [reflexivity |].
  destruct (skipn (length r - 1) r) as [| c t] eqn:E; [reflexivity |].
  assert (Hin : In c r).
  { rewrite <- (firstn_skipn (length r - 1) r), E.
    apply in_or_app. right. now left. }
  unfold noLF in H. rewrite Forall_forall in H. specialize (H c Hin).
  simpl. rewrite (eqb_LF_false _ H). reflexivity.
Qed.

Lemma last_unit {A} (l : list A) (x d : A) :
  nth (length (l ++ [x]) - 1) (l ++ [x]) d = x.
Proof.
  rewrite length_app. simpl length.
  replace (length l + 1 - 1) with (length l) by lia.
  rewrite app_nth2, Nat.sub_diag by lia. reflexivity.
Qed.

Lemma length_snoc_eqb {A} (l : list A) (x : A) :
  (length (l ++ [x]) =? 0) = false.
Proof. apply Nat.eqb_neq. rewrite length_app. simpl. lia. Qed.

Lemma String_match_orEmpty s r :
  match String_match s r with Some l => l | None => [] end = matches r s.
Proof. unfold String_match. destruct (matches r s); reflexivity. Qed.

(** One step: the lines the chunk completes, and the text it leaves
    unterminated. *)
Lemma accumulate_splitLines buffer data :
  noLF (incomplete buffer) ->
  accumulate buffer data =
  {| complete :=
       map trimTerminator (fst (splitLines (incomplete buffer) data));
     incomplete := snd (splitLines (incomplete buffer) data) |}.
Proof.
  intros Hinc. unfold accumulate. cbv zeta.
  rewrite String_match_orEmpty, matches_line_re, (splitLines_run [] _ data Hinc).
  change ([] ++ incomplete buffer) with (incomplete buffer).
  destruct (splitLines_shape data _ Hinc) as [Hls Hr].
  destruct (splitLines (incomplete buffer) data) as [ls r]. simpl in *.
  destruct r as [| c r]; simpl unterminated.
  - rewrite app_nil_r.
    destruct ls as [| l ls] using rev_ind; [reflexivity |]. clear IHls.
    rewrite length_snoc_eqb, last_unit, endsWith_LF_complete; [reflexivity |].
    apply Forall_app in Hls. destruct Hls as [_ Hl].
    inversion Hl; assumption.
  - rewrite length_snoc_eqb, last_unit, (endsWith_LF_noLF _ Hr), slice_init. reflexivity.
Qed.

(** *** The whole scan *)

Lemma splitLines_app a : forall cur b,
  splitLines cur (a ++ b) =
  (fst (splitLines cur a) ++ fst (splitLines (snd (splitLines cur a)) b),
   snd (splitLines (snd (splitLines cur a)) b)).
Proof.
  induction a as [| c a IH]; intros cur b; simpl.
  - destruct (splitLines cur b); reflexivity.
  - destruct (Ascii.eqb c LF); [| apply IH].
    destruct cur as [| d cur]; [apply IH |].
    rewrite (IH [] b). destruct (splitLines [] a) as [ls r]. reflexivity.
Qed.

(** The lines emitted over a sequence of chunks and the text left in
    [incomplete] are those of the concatenated chunks. *)
Lemma scan_splitLines data : forall buffer,
  noLF (incomplete buffer) ->
  flat_map complete (scan accumulate buffer data) =
    map trimTerminator (fst (splitLines (incomplete buffer) (concat data))) /\
  incomplete (lastState accumulate buffer data) =
    snd (splitLines (incomplete buffer) (concat data)).
Proof.
  unfold lastState.
  induction data as [| chunk data IH]; intros buffer Hinc; simpl.
  - auto.
  - rewrite (accumulate_splitLines buffer chunk Hinc), splitLines_app.
    destruct (splitLines_shape chunk _ Hinc) as [_ Hr].
    set (buffer' := {| complete := _; incomplete := _ |}).
    destruct (IH buffer' Hr) as [E1 E2].
    rewrite E1, E2. simpl. rewrite map_app. auto.
Qed.

Lemma lines_splitLines data :
  lines data = map trimTerminator (fst (splitLines [] (concat data))).
Proof. apply (scan_splitLines data seed). constructor. Qed.

Lemma incomplete_splitLines data :
  incomplete (lastState accumulate seed data) =
  snd (splitLines [] (concat data)).
Proof. apply (scan_splitLines data seed). constructor. Qed.

Lemma lines_whole data : lines [concat data] = lines data.
Proof.
  rewrite !lines_splitLines. simpl concat. rewrite app_nil_r. reflexivity.
Qed.

Lemma splitLines_concat s : forall cur,
  concat (fst (splitLines cur s)) ++ snd (splitLines cur s) =
  cur ++ withoutBlankLines (match cur with [] => false | _ => true end) s.
Proof.
  induction s as [| c s IH]; intros cur; simpl.
  - rewrite app_nil_r. reflexivity.
  - destruct (Ascii.eqb c LF).
    + destruct cur as [| d cur]; [apply IH |].
      specialize (IH []). destruct (splitLines [] s) as [ls r].
      simpl in *. rewrite <- !app_assoc. simpl. rewrite IH. reflexivity.
    + rewrite IH, <- app_assoc. destruct cur; reflexivity.
Qed.

(** The terminators that the emitted lines lost. *)
Lemma terminators_restore ls :
  Forall completeLine ls ->
  exists terminators,
    length terminators = length ls /\
    Forall isTerminator terminators /\
    map (fun p => fst p ++ snd p) (combine (map trimTerminator ls) terminators)
      = ls.
Proof.
  induction 1 as [| l ls (body & -> & Hbody) _ (ts & Hlen & Hts & E)].
  - exists []. repeat split; constructor.
  - destruct (stripCR_restore body) as (t & Ht & Et).
    exists (t :: ts). simpl. rewrite Hlen, (trimTerminator_line _ Hbody), Et, E.
    repeat split. constructor; assumption.
Qed.

Lemma scan_snoc {A B} (f : B -> A -> B) (xs : list A) (x : A) : forall acc,
  scan f acc (xs ++ [x]) = scan f acc xs ++ [f (fold_left f xs acc) x].
Proof.
  induction xs as [| y xs IH]; intros acc; simpl.
  - reflexivity.
  - rewrite IH. reflexivity.
Qed.

Lemma lines_snoc data chunk :
  lines (data ++ [chunk]) =
  lines data ++ complete (lastState accumulate seed (data ++ [chunk])).
Proof.
  unfold lines, lastState.
  rewrite scan_snoc, flat_map_app, fold_left_app. simpl.
  rewrite app_nil_r. reflexivity.
Qed.

Lemma restoresTo_withoutBlankLines data :
  restoresTo data (withoutBlankLines false (concat data)).
Proof.
  unfold restoresTo, withTerminators.
  rewrite lines_splitLines, incomplete_splitLines.
  destruct (splitLines_shape (concat data) [] (Forall_nil _)) as [Hls _].
  destruct (terminators_restore _ Hls) as (ts & Hlen & Hts & E).
  exists ts. rewrite length_map, E. repeat split; try assumption.
  apply (splitLines_concat (concat data) []).
Qed.

End LineTransformer.

(** ** The line transformer over chunks *)

(** C1: however a payload is cut into chunks, also between a CR and the LF
    that follows it, [lines$] emits the same lines in the same order as for
    the payload in a single chunk. *)
Theorem lines_chunking_invariant (chunks : list jsstring) :
  lines chunks = lines [concat chunks].
Proof. symmetry. apply lines_whole. Qed.

(** C2, as the specification states it, fails on a chunk that holds an
    empty line: after the chunk ["\n"] nothing was emitted and [incomplete]
    is empty, while one unit was received. *)
Lemma accumulator_invariant_counterexample :
  ~ restoresTo [[LF]] (concat [[LF]]).
Proof.
  intros (terminators & Hlen & _ & E).
  destruct terminators as [| t ts]; [| discriminate Hlen].
  vm_compute in E. discriminate E.
Qed.

(** C2, amended: after every sequence of chunks, the lines emitted so far,
    each followed by the terminator ["\n"] or ["\r\n"] it was read with,
    then [incomplete], give the chunks received so far without the LFs that
    end no line (an LF at the very beginning or directly after another LF);
    a step does not look at the [complete] of the step before, and its
    [complete] is what the chunk adds to the lines of the whole input. *)
Theorem accumulator_invariant_modulo_blank_lines (data : list jsstring) :
  restoresTo data (withoutBlankLines false (concat data)) /\
  (forall buffer chunk,
     accumulate buffer chunk =
     accumulate {| complete := []; incomplete := incomplete buffer |} chunk) /\
  (forall chunk,
     lines [concat (data ++ [chunk])] =
     lines [concat data]
       ++ complete (lastState accumulate seed (data ++ [chunk]))).
Proof.
  split; [apply restoresTo_withoutBlankLines |].
  split; [reflexivity |].
  intros chunk. rewrite !lines_whole. apply lines_snoc.
Qed.

(** ** The protocol core *)

Section ProtocolCore.

Lemma streq_spec a : forall b, streq a b = true <-> a = b.
Proof.
  induction a as [| x a IH]; intros [| y b]; simpl.
  - split; reflexivity.
  - split; intros H; discriminate H.
  - split; intros H; discriminate H.
  - rewrite andb_true_iff, Ascii.eqb_eq, IH.
    split; [intros [-> ->]; reflexivity | intros H; inversion H; auto].
Qed.

Lemma join_cons sep x l :
  l <> [] -> join sep (x :: l) = x ++ sep ++ join sep l.
Proof. destruct l; [congruence | reflexivity]. Qed.

Lemma join_snoc sep l : forall x,
  l <> [] -> join sep (l ++ [x]) = join sep l ++ sep ++ x.
Proof.
  induction l as [| y l IH]; intros x Hne; [congruence |].
  destruct l as [| z l]; [reflexivity |].
  change ((y :: z :: l) ++ [x]) with (y :: (z :: l) ++ [x]).
  rewrite (join_cons sep y ((z :: l) ++ [x])) by discriminate.
  rewrite IH by discriminate.
  rewrite (join_cons sep y (z :: l)) by discriminate.
  rewrite <- !app_assoc. reflexivity.
Qed.

(** The text built for a message with a last parameter. *)
Lemma send_data_snoc p c init lastp :
  send_data {| prefix := p; command := c; params := init ++ [lastp] |} =
  c ++ lit " " ++ join (lit " ") init ++ lit " :" ++ lastp ++ [CR; LF].
Proof.
  unfold send_data. cbn [params command].
  rewrite slice_init, slice_last. simpl join.
  rewrite <- !app_assoc. reflexivity.
Qed.

Lemma handshake_cons options x signal socket :
  handshake options (x :: signal) socket =
  handshake options signal (connectedNext options x socket).
Proof. reflexivity. Qed.

Lemma handshake_count options signal : forall socket,
  handshake options signal socket =
  socket ++ concat (repeat (handshakeWrites options)
                           (count_occ bool_dec signal true)).
Proof.
  induction signal as [| x signal IH]; intros socket.
  - simpl. rewrite app_nil_r. reflexivity.
  - rewrite handshake_cons, IH. destruct x; simpl.
    + unfold sendUserAndNick, send, send_next, write_next.
      rewrite <- !app_assoc. reflexivity.
    + reflexivity.
Qed.

Lemma onceConnect_disarmed events : onceConnect false events = [].
Proof.
  induction events as [| [| d] events IH]; simpl; auto.
Qed.

Lemma onceConnect_at_most_once events : forall armed,
  count_occ bool_dec (onceConnect armed events) true <= 1.
Proof.
  induction events as [| [| d] events IH]; intros armed; simpl.
  - lia.
  - destruct armed; rewrite onceConnect_disarmed; simpl; lia.
  - apply IH.
Qed.

Lemma keepAlive_cons message inbound socket :
  keepAlive (message :: inbound) socket =
  keepAlive inbound (messageNext message socket).
Proof. reflexivity. Qed.

Lemma keepAlive_pongs inbound : forall socket,
  keepAlive inbound socket =
  socket ++ map (fun message => send_data (pongMessage message))
                (commandStream (lit "PING") inbound).
Proof.
  induction inbound as [| message inbound IH]; intros socket.
  - simpl. rewrite app_nil_r. reflexivity.
  - rewrite keepAlive_cons, IH. unfold messageNext, commandStream.
    cbn [filter].
    destruct (streq (command message) (lit "PING")); [| reflexivity].
    unfold send, send_next, write_next. rewrite <- app_assoc. reflexivity.
Qed.

End ProtocolCore.

(** What [send$.next] writes for a message with a last parameter: with two
    or more parameters the line [COMMAND p0 p1 ... :pLast\r\n], with a
    single parameter the command, two spaces, the colon and the
    parameter. *)
Lemma send_next_format (p : option jsstring) (c : jsstring)
    (init : list jsstring) (lastp : jsstring) (socket : Socket) :
  let message := {| prefix := p; command := c; params := init ++ [lastp] |} in
  send_next message socket =
    socket ++ [c ++ lit " " ++ join (lit " ") init ++ lit " :" ++ lastp
                 ++ [CR; LF]] /\
  match init with
  | [] => send_data message = c ++ lit "  :" ++ lastp ++ [CR; LF]
  | _ :: _ => send_data message = trailingFormLine message
  end.
Proof.
  cbv zeta. unfold send_next, write_next. rewrite send_data_snoc.
  split; [reflexivity |].
  destruct init as [| p0 init]; [reflexivity |].
  unfold trailingFormLine. cbn [params command].
  rewrite removelast_last, last_last.
  rewrite (join_cons (lit " ") c) by (destruct init; discriminate).
  rewrite (join_snoc (lit " ") (p0 :: init)) by discriminate.
  rewrite <- !app_assoc. reflexivity.
Qed.

(** C3: for the message NICK with the single parameter [bob], [send$.next]
    writes ["NICK  :bob\r\n"], two spaces after the command, where the line
    [COMMAND :pLast\r\n] is ["NICK :bob\r\n"]. The observers [complete] and
    [error] of the same [send$] write their one-parameter lines in that
    form, with one space, which [send$.next] does not reproduce. *)
Theorem send_single_parameter :
  let message :=
    {| prefix := None; command := lit "NICK"; params := [lit "bob"] |} in
  let quit :=
    {| prefix := None; command := lit "QUIT"; params := [lit "Leaving"] |} in
  send_next message [] = [lit "NICK  :bob" ++ [CR; LF]] /\
  trailingFormLine message = lit "NICK :bob" ++ [CR; LF] /\
  send_next message [] <> [trailingFormLine message] /\
  send_complete [] = [trailingFormLine quit] /\
  send_next quit [] <> send_complete [].
Proof.
  cbv zeta. repeat split; try reflexivity; vm_compute; discriminate.
Qed.

(** C9: for a message without parameters [send$.next] still builds a text,
    the command followed by two spaces, a colon and CR LF, and writes it;
    the write after it is the one of the next message, untouched. *)
Theorem send_without_params (p : option jsstring) (c : jsstring)
    (socket : Socket) (next : IRCMessage) :
  let message := {| prefix := p; command := c; params := [] |} in
  send_next message socket = socket ++ [c ++ lit "  :" ++ [CR; LF]] /\
  send_next next (send_next message socket) =
    socket ++ [c ++ lit "  :" ++ [CR; LF]; send_data next].
Proof.
  cbv zeta. unfold send_next, write_next, send_data. cbn [params command].
  unfold slice. simpl. rewrite <- !app_assoc. simpl. auto.
Qed.

(** C4, as the specification states it, fails on a signal that is true
    twice: the pair is written again. *)
Lemma handshake_repeats_counterexample :
  let options :=
    {| hostname := lit "irc.example.net"; username := lit "u";
       port := 6667%Z; nick := lit "n"; realName := lit "r" |} in
  let signal := [false; true; true] in
  In true signal /\
  handshake options signal [] <> handshakeWrites options /\
  handshake options signal [] =
    [lit "USER u . . :r" ++ [CR; LF]; lit "NICK  :n" ++ [CR; LF];
     lit "USER u . . :r" ++ [CR; LF]; lit "NICK  :n" ++ [CR; LF]].
Proof.
  cbv zeta. split; [simpl; auto |].
  split; [vm_compute; discriminate | reflexivity].
Qed.

(** C4, amended: for every lifecycle signal the core writes, for each true
    value of the signal and in the order of the signal, one USER message
    with the parameters [username, ".", ".", realName] followed by one NICK
    message with the parameter [nick], and nothing for a false value; the
    signal of [RxSocket] itself is true at most once, whatever the socket
    does. *)
Theorem handshake_per_true_signal (options : Options) (signal : list bool)
    (socket : Socket) :
  handshake options signal socket =
    socket ++ concat (repeat [send_data (userMessage options);
                              send_data (nickMessage options)]
                             (count_occ bool_dec signal true)) /\
  (forall events, count_occ bool_dec (connected events) true <= 1).
Proof.
  split; [apply handshake_count |].
  intros events. unfold connected. simpl. apply onceConnect_at_most_once.
Qed.

(** C7: a message with the command PING makes the core write exactly one
    message, a PONG with the same parameters, and over a whole inbound
    stream the writes are these answers to the PINGs, in order, and nothing
    else. *)
Theorem ping_answered_with_pong (p : option jsstring) (ps : list jsstring)
    (socket : Socket) :
  messageNext {| prefix := p; command := lit "PING"; params := ps |} socket =
    socket ++ [send_data {| prefix := None; command := lit "PONG";
                            params := ps |}] /\
  (forall inbound,
     keepAlive inbound socket =
     socket ++ map (fun message =>
                      send_data {| prefix := None; command := lit "PONG";
                                   params := params message |})
                   (commandStream (lit "PING") inbound)).
Proof.
  split; [reflexivity |]. intros inbound. apply keepAlive_pongs.
Qed.

(** C8: the channel view yields a message exactly when the message has a
    first parameter whose lower-case form equals the lower-case form of the
    channel name; a message without parameters is never yielded. *)
Theorem channel_view_filter (toLowerCase : jsstring -> jsstring)
    (channel : jsstring) (inbound : list IRCMessage) (message : IRCMessage) :
  In message (RxIRCChannel.messages toLowerCase channel inbound) <->
  In message inbound /\
  exists p0 rest,
    params message = p0 :: rest /\ toLowerCase p0 = toLowerCase channel.
Proof.
  unfold RxIRCChannel.messages. rewrite filter_In.
  unfold RxIRCChannel.channelFilter.
  rewrite andb_true_iff, streq_spec, Nat.ltb_lt.
  destruct (params message) as [| p0 rest]; simpl.
  - split.
    + intros (_ & H & _). lia.
    + intros (_ & p0 & rest & H & _). discriminate H.
  - split.
    + intros (Hin & _ & E). split; [exact Hin |]. exists p0, rest. auto.
    + intros (Hin & q & r & H & E). inversion H; subst.
      split; [exact Hin |]. split; [lia | exact E].
Qed.

Lemma channel_view_filter_witness :
  let message :=
    {| prefix := Some (lit "nick!user@host"); command := lit "PRIVMSG";
       params := [lit "#test"; lit "hello"] |} in
  let silent := {| prefix := None; command := lit "PING"; params := [] |} in
  In message
     (RxIRCChannel.messages RxIRCChannel.asciiLower (lit "#Test")
                            [silent; message]).
Proof.
  cbv zeta.
  apply (proj2 (channel_view_filter RxIRCChannel.asciiLower (lit "#Test")
                  [{| prefix := None; command := lit "PING"; params := [] |};
                   {| prefix := Some (lit "nick!user@host");
                      command := lit "PRIVMSG";
                      params := [lit "#test"; lit "hello"] |}]
                  {| prefix := Some (lit "nick!user@host");
                     command := lit "PRIVMSG";
                     params := [lit "#test"; lit "hello"] |})).
  split.
  - simpl. right. left. reflexivity.
  - exists (lit "#test"), [lit "hello"]. split; reflexivity.
Defined.

(** ** The parser *)

Section Parser.

Variable line : jsstring.

Lemma peekNext_at_end index :
  length line <= index -> peekNext line index = ([], index).
Proof.
  intros H. unfold peekNext.
  destruct (Nat.leb_spec (length line) index); [reflexivity | lia].
Qed.

Lemma scanWhile_loop_unfold pred_ result index :
  scanWhile_loop line pred_ result index =
  if scanStops line pred_ index then (result, index)
  else scanWhile_loop line pred_ (result ++ fst (peekNext line index))
                      (snd (scanNext line index)).
Proof.
  funelim (scanWhile_loop line pred_ result index).
  - rewrite e. reflexivity.
  - rewrite e. reflexivity.
Qed.

Lemma paramLoop_unfold message index :
  paramLoop line message index =
  match paramIteration line message index with
  | ((true, m), _) => m
  | ((false, m), index') => paramLoop line m index'
  end.
Proof.
  funelim (paramLoop line message index); rewrite e; reflexivity.
Qed.

(** The loop returns within as many rounds as there are units left, and one
    more. *)
Lemma paramRounds_enough fuel : forall message index,
  length line - index < fuel ->
  paramRounds line fuel message index = Some (paramLoop line message index).
Proof.
  induction fuel as [| fuel IH]; intros message index Hfuel; [lia |].
  simpl. rewrite paramLoop_unfold.
  destruct (paramIteration line message index) as [[returns m] index'] eqn:E.
  destruct returns; [reflexivity |].
  apply paramIteration_progress in E. apply IH. lia.
Qed.

Lemma parseIRCMessage_returns : exists message, parseIRCMessage line = Some message.
Proof.
  unfold parseIRCMessage, bind, ret, parseParams.
  destruct (parsePrefix line _ 0) as [[returns1 m1] i1]. simpl.
  destruct returns1; [eexists; reflexivity |].
  destruct (parseCommand line m1 i1) as [[returns2 m2] i2]. simpl.
  destruct returns2; eexists; reflexivity.
Qed.

End Parser.

Section BlankLine.

Lemma blank_length n : length (blank n) = n.
Proof. apply repeat_length. Qed.

Lemma blank_peekNext n index :
  index < n -> peekNext (blank n) index = ([SP], index).
Proof.
  intros H. rewrite peekNext_in_range by (rewrite blank_length; exact H).
  rewrite (nth_indep _ zero SP) by (rewrite blank_length; exact H).
  unfold blank. rewrite nth_repeat. reflexivity.
Qed.

Lemma blank_scan_spaces n k : forall index result,
  index + k = n ->
  scanWhile_loop (blank n) (fun c => streq c (lit " ")) result index =
  (result ++ repeat SP k, n).
Proof.
  induction k as [| k IH]; intros index result Hk;
    rewrite scanWhile_loop_unfold; unfold scanStops.
  - rewrite peekNext_at_end by (rewrite blank_length; lia).
    simpl. rewrite app_nil_r. f_equal. lia.
  - rewrite blank_peekNext by lia.
    rewrite scanNext_in_range by (rewrite blank_length; lia).
    cbn -[blank]. rewrite IH by lia. rewrite <- app_assoc. reflexivity.
Qed.

Lemma blank_scan_token n index result :
  scanWhile_loop (blank n) (fun c => negb (streq c (lit " "))) result index =
  (result, index).
Proof.
  rewrite scanWhile_loop_unfold. unfold scanStops.
  destruct (Nat.lt_ge_cases index n) as [Hin | Hout].
  - rewrite blank_peekNext by exact Hin. reflexivity.
  - rewrite peekNext_at_end by (rewrite blank_length; exact Hout).
    reflexivity.
Qed.

(** What the parser returns for a line of one or more spaces. *)
Lemma parse_spaces n :
  parseIRCMessage (blank (S n)) =
  Some {| prefix := None; command := []; params := [[]] |}.
Proof.
  unfold parseIRCMessage, parsePrefix, parseCommand, parseParams, skip,
    skipSpaces, scanWhile, isEOF, bind, ret.
  rewrite blank_peekNext by lia. cbn -[blank].
  rewrite blank_scan_token. cbn -[blank].
  rewrite (blank_scan_spaces (S n) (S n) _ _) by lia. cbn -[blank].
  rewrite paramLoop_unfold.
  unfold paramIteration, skip, skipSpaces, scanWhile, isEOF, bind, ret.
  rewrite peekNext_at_end by (rewrite blank_length; lia). cbn -[blank].
  rewrite blank_scan_token. cbn -[blank].
  rewrite (blank_scan_spaces (S n) 0 _ _) by lia. cbn -[blank].
  rewrite blank_length.
  destruct (Nat.leb_spec (S n) (S n)); [reflexivity | lia].
Qed.

End BlankLine.

(** ** What the parser returns *)

(** C5: for every line the parser returns a message. Its parameter loop
    leaves the cursor further on, and inside the line, in every round that
    does not return, so it returns within as many rounds as units are left
    after the cursor, and one more. *)
Theorem parseIRCMessage_total (line : jsstring) :
  (exists message, parseIRCMessage line = Some message) /\
  (forall message index,
     match paramIteration line message index with
     | ((false, _), index') => index < index' < length line
     | ((true, _), _) => True
     end) /\
  (forall message index,
     paramRounds line (S (length line - index)) message index =
     Some (paramLoop line message index)).
Proof.
  split; [apply parseIRCMessage_returns |]. split.
  - intros message index.
    destruct (paramIteration line message index) as [[returns m] index'] eqn:E.
    destruct returns; [exact I |].
    exact (paramIteration_progress line message index m index' E).
  - intros message index. apply paramRounds_enough. lia.
Qed.

(** C6, as the specification states it, fails on a line that consists of
    one space: the parameter list holds one empty parameter. *)
Lemma blank_line_counterexample :
  Forall (fun c => c = SP) (lit " ") /\
  parseIRCMessage (lit " ") =
    Some {| prefix := None; command := []; params := [[]] |} /\
  parseIRCMessage (lit " ") <>
    Some {| prefix := None; command := []; params := [] |}.
Proof.
  split; [repeat constructor |].
  split; [vm_compute; reflexivity | vm_compute; discriminate].
Qed.

(** C6, amended: for the empty line the parser returns the message without
    prefix, with the empty command and no parameter; for a line of one or
    more spaces it returns the message without prefix, with the empty
    command and the single parameter [""]. *)
Theorem parse_blank_line (n : nat) :
  parseIRCMessage (repeat SP n) =
  Some {| prefix := None; command := [];
          params := match n with 0 => [] | S _ => [[]] end |}.
Proof.
  destruct n as [| n]; [reflexivity | apply parse_spaces].
Qed.

(** C10: the parser returns [undefined] for no line, so no line is dropped:
    the inbound stream holds, in order, exactly one message for each line,
    the one the parser returns for it; this holds for the lines of any
    chunks. *)
Theorem every_line_yields_one_message (ls : list jsstring) :
  (forall line,
     exists message,
       parseIRCMessage line = Some message /\ parsedLine line = [message]) /\
  Forall2 (fun line message => parseIRCMessage line = Some message)
          ls (messages_of_lines ls) /\
  (forall data, length (messages data) = length (lines data)).
Proof.
  assert (Hsome : forall line,
            exists message,
              parseIRCMessage line = Some message /\
              parsedLine line = [message]).
  { intros line. destruct (parseIRCMessage_returns line) as [m E].
    exists m. unfold parsedLine. rewrite E. auto. }
  assert (Hall : forall l,
            Forall2 (fun line message => parseIRCMessage line = Some message)
                    l (messages_of_lines l)).
  { induction l as [| line l IH]; [constructor |].
    unfold messages_of_lines. simpl. unfold parsedLine at 1.
    destruct (parseIRCMessage_returns line) as [m E]. rewrite E.
    constructor; [exact E | exact IH]. }
  split; [exact Hsome |]. split; [apply Hall |].
  intros data. unfold messages. symmetry.
  exact (Forall2_length (Hall (lines data))).
Qed.

(** * Further properties *)

(** ** The line transformer: framing, buffering and what is emitted *)

Section LineFraming.

Lemma stripCR_noLF body : noLF body -> noLF (stripCR body).
Proof.
  induction body as [| c body IH]; intros H; [constructor |].
  inversion H as [| ? ? Hc Hbody]; subst.
  destruct body as [| d body].
  - simpl. destruct (Ascii.eqb c CR); [constructor | exact H].
  - change (stripCR (c :: d :: body)) with (c :: stripCR (d :: body)).
    constructor; [exact Hc | apply IH; exact Hbody].
Qed.

Lemma stripCR_snoc_CR l : stripCR (l ++ [CR]) = l.
Proof.
  induction l as [| c l IH]; [reflexivity |].
  destruct l as [| d l]; [reflexivity |].
  change (stripCR ((c :: d :: l) ++ [CR]))
    with (c :: stripCR ((d :: l) ++ [CR])).
  rewrite IH. reflexivity.
Qed.

Lemma map_trimTerminator_complete ls :
  Forall noLF ls ->
  map trimTerminator (map (fun l => l ++ [LF]) ls) = map stripCR ls.
Proof.
  induction 1 as [| l ls Hl _ IH]; [reflexivity |].
  simpl. rewrite (trimTerminator_line _ Hl), IH. reflexivity.
Qed.

Lemma incomplete_noLF data :
  noLF (incomplete (lastState accumulate seed data)).
Proof.
  rewrite incomplete_splitLines.
  apply (splitLines_shape (concat data) [] (Forall_nil _)).
Qed.

Lemma lines_noLF data : Forall noLF (lines data).
Proof.
  rewrite lines_splitLines.
  destruct (splitLines_shape (concat data) [] (Forall_nil _)) as [Hls _].
  induction Hls as [| l ls (body & -> & Hbody) _ IH]; [constructor |].
  simpl. constructor; [| exact IH].
  rewrite (trimTerminator_line _ Hbody). apply stripCR_noLF, Hbody.
Qed.

Lemma splitLines_noLF cur run :
  noLF run -> splitLines cur run = ([], cur ++ run).
Proof.
  intros H. rewrite <- (app_nil_r run) at 1.
  rewrite (splitLines_run cur run [] H). reflexivity.
Qed.

Lemma splitLines_line cur tail rest :
  noLF tail -> cur ++ tail <> [] ->
  splitLines cur (tail ++ LF :: rest) =
  ((cur ++ tail ++ [LF]) :: fst (splitLines [] rest),
   snd (splitLines [] rest)).
Proof.
  intros Htail Hne. rewrite (splitLines_run cur tail _ Htail). simpl.
  rewrite (app_assoc cur tail [LF]).
  destruct (cur ++ tail) as [| c body]; [congruence |].
  destruct (splitLines [] rest) as [ls r]. reflexivity.
Qed.

Lemma splitLines_framed_LF ls :
  Forall noLF ls ->
  splitLines [] (framed [LF] ls) =
  (map (fun l => l ++ [LF]) (filter nonEmpty ls), []).
Proof.
  unfold framed.
  induction 1 as [| l ls Hl _ IH]; [reflexivity |].
  simpl concat. rewrite <- app_assoc. simpl app.
  destruct l as [| c l].
  - simpl. exact IH.
  - rewrite (splitLines_line [] (c :: l) _ Hl) by discriminate.
    rewrite IH. reflexivity.
Qed.

Lemma filter_noLF ls : Forall noLF ls -> Forall noLF (filter nonEmpty ls).
Proof.
  intros H. apply Forall_forall. intros l Hin.
  apply filter_In in Hin. destruct Hin as [Hin _].
  rewrite Forall_forall in H. apply H, Hin.
Qed.

Lemma lines_framed_LF ls :
  Forall noLF ls ->
  lines [framed [LF] ls] = map stripCR (filter nonEmpty ls).
Proof.
  intros H. rewrite lines_splitLines. simpl concat. rewrite app_nil_r.
  rewrite (splitLines_framed_LF ls H). simpl fst.
  apply map_trimTerminator_complete, filter_noLF, H.
Qed.

Lemma framed_CRLF ls :
  framed [CR; LF] ls = framed [LF] (map (fun l => l ++ [CR]) ls).
Proof.
  unfold framed. rewrite map_map. f_equal. apply map_ext.
  intros l. rewrite <- app_assoc. reflexivity.
Qed.

Lemma lines_framed_CRLF ls :
  Forall noLF ls -> lines [framed [CR; LF] ls] = ls.
Proof.
  intros H. rewrite framed_CRLF, lines_framed_LF.
  - clear H. induction ls as [| l ls IH]; [reflexivity |].
    cbn [map filter].
    replace (nonEmpty (l ++ [CR])) with true by (destruct l; reflexivity).
    cbn [map]. rewrite stripCR_snoc_CR, IH. reflexivity.
  - induction H as [| l ls Hl _ IH]; constructor; [| exact IH].
    apply noLF_app; [exact Hl |]. constructor; [discriminate | constructor].
Qed.

Lemma lastState_snoc {A B} (f : B -> A -> B) acc xs x :
  lastState f acc (xs ++ [x]) = f (lastState f acc xs) x.
Proof. unfold lastState. rewrite fold_left_app. reflexivity. Qed.

Lemma matchAt_terminator_noLF s :
  noLF s -> matchAt terminator_re s = None.
Proof.
  intros H. unfold matchAt, terminator_re.
  destruct H as [| c s Hc Hs]; [reflexivity |].
  simpl. rewrite (eqb_LF_false _ Hc).
  destruct (Ascii.eqb c CR); [| reflexivity].
  destruct Hs as [| d s Hd _]; [reflexivity |].
  simpl. rewrite (eqb_LF_false _ Hd). reflexivity.
Qed.

Lemma trimTerminator_noLF s : noLF s -> trimTerminator s = s.
Proof.
  unfold trimTerminator.
  induction 1 as [| c s Hc Hs IH]; [reflexivity |].
  rewrite String_replace_cons.
  rewrite matchAt_terminator_noLF by (constructor; assumption).
  rewrite IH. reflexivity.
Qed.

End LineFraming.

(** X1: the text read so far that has no terminator yet, and every line
    that [lines$] emits, hold no LF. *)
Theorem lines_and_incomplete_without_LF (data : list jsstring) :
  Forall noLF (lines data) /\
  noLF (incomplete (lastState accumulate seed data)).
Proof. split; [apply lines_noLF | apply incomplete_noLF]. Qed.

(** X2: a chunk without LF, the empty chunk too, emits no line and is put
    behind the text that waits in [incomplete]. *)
Theorem chunk_without_terminator_is_buffered (data : list jsstring)
    (chunk : jsstring) :
  noLF chunk ->
  lines (data ++ [chunk]) = lines data /\
  incomplete (lastState accumulate seed (data ++ [chunk])) =
    incomplete (lastState accumulate seed data) ++ chunk.
Proof.
  intros Hchunk. rewrite lines_snoc, !lastState_snoc.
  rewrite !(accumulate_splitLines _ chunk (incomplete_noLF data)).
  rewrite !(splitLines_noLF _ chunk Hchunk). simpl.
  rewrite app_nil_r. auto.
Qed.

Lemma chunk_without_terminator_is_buffered_witness :
  noLF (lit "lo wor") /\
  lines ([lit "a" ++ [LF] ++ lit "hel"] ++ [lit "lo wor"]) =
    lines [lit "a" ++ [LF] ++ lit "hel"] /\
  incomplete (lastState accumulate seed
                ([lit "a" ++ [LF] ++ lit "hel"] ++ [lit "lo wor"])) =
    incomplete (lastState accumulate seed [lit "a" ++ [LF] ++ lit "hel"])
      ++ lit "lo wor".
Proof.
  assert (H : noLF (lit "lo wor")).
  { repeat constructor; discriminate. }
  split; [exact H |].
  exact (chunk_without_terminator_is_buffered
           [lit "a" ++ [LF] ++ lit "hel"] (lit "lo wor") H).
Defined.

(** X3: a chunk that brings the LF, after a text without LF, emits exactly
    one line: the waiting text and the text of the chunk before the LF,
    without a CR at its end; nothing is left waiting. *)
Theorem chunk_with_terminator_emits_line (data : list jsstring)
    (tail : jsstring) :
  noLF tail ->
  incomplete (lastState accumulate seed data) ++ tail <> [] ->
  lines (data ++ [tail ++ [LF]]) =
    lines data
      ++ [stripCR (incomplete (lastState accumulate seed data) ++ tail)] /\
  incomplete (lastState accumulate seed (data ++ [tail ++ [LF]])) = [].
Proof.
  intros Htail Hne. rewrite lines_snoc, !lastState_snoc.
  rewrite !(accumulate_splitLines _ (tail ++ [LF]) (incomplete_noLF data)).
  rewrite !(splitLines_line _ tail [] Htail Hne). simpl.
  rewrite app_assoc, trimTerminator_line; [auto |].
  apply noLF_app; [apply incomplete_noLF | exact Htail].
Qed.

Lemma chunk_with_terminator_emits_line_witness :
  lines ([lit "hel"] ++ [lit "lo" ++ [CR] ++ [LF]]) =
    lines [lit "hel"]
      ++ [stripCR (incomplete (lastState accumulate seed [lit "hel"])
                     ++ lit "lo" ++ [CR])] /\
  incomplete (lastState accumulate seed
                ([lit "hel"] ++ [lit "lo" ++ [CR] ++ [LF]])) = [].
Proof.
  assert (H : noLF (lit "lo" ++ [CR])).
  { repeat constructor; discriminate. }
  assert (Hne : incomplete (lastState accumulate seed [lit "hel"])
                  ++ lit "lo" ++ [CR] <> []).
  { vm_compute. discriminate. }
  rewrite (app_assoc (lit "lo") [CR] [LF]).
  exact (chunk_with_terminator_emits_line [lit "hel"] (lit "lo" ++ [CR])
           H Hne).
Defined.

(** X4: lines without LF that are sent each followed by CR LF come out of
    [lines$] as they went in, in order, however the text is cut into
    chunks; an empty line comes out as the empty line. *)
Theorem lines_of_CRLF_framed (ls chunks : list jsstring) :
  Forall noLF ls ->
  concat chunks = framed [CR; LF] ls ->
  lines chunks = ls.
Proof.
  intros Hls E. rewrite <- lines_whole, E. apply lines_framed_CRLF, Hls.
Qed.

Lemma lines_of_CRLF_framed_witness :
  lines [lit "PING :a" ++ [CR]; [LF; CR]; [LF] ++ lit "x" ++ [CR; LF]] =
  [lit "PING :a"; []; lit "x"].
Proof.
  apply (lines_of_CRLF_framed [lit "PING :a"; []; lit "x"]).
  - repeat constructor; discriminate.
  - reflexivity.
Defined.

(** X5: lines without LF that are sent each followed by a bare LF come out
    of [lines$] in order, without the empty ones and each without a CR at
    its end, however the text is cut into chunks. *)
Theorem lines_of_LF_framed (ls chunks : list jsstring) :
  Forall noLF ls ->
  concat chunks = framed [LF] ls ->
  lines chunks = map stripCR (filter nonEmpty ls).
Proof.
  intros Hls E. rewrite <- lines_whole, E. apply lines_framed_LF, Hls.
Qed.

Lemma lines_of_LF_framed_witness :
  lines [lit "a" ++ [LF; LF]; lit "b" ++ [CR]; [LF]] = [lit "a"; lit "b"].
Proof.
  apply (lines_of_LF_framed [lit "a"; []; lit "b" ++ [CR]]).
  - repeat constructor; discriminate.
  - reflexivity.
Defined.

(** X6: [trimTerminator] takes a final LF away, together with the CR before
    it if there is one, and leaves a text without LF as it is. *)
Theorem trimTerminator_cases (body : jsstring) :
  noLF body ->
  trimTerminator (body ++ [CR; LF]) = body /\
  trimTerminator (body ++ [LF]) = stripCR body /\
  trimTerminator body = body.
Proof.
  intros H. split; [| split].
  - change [CR; LF] with ([CR] ++ [LF]). rewrite app_assoc.
    rewrite trimTerminator_line, stripCR_snoc_CR; [reflexivity |].
    apply noLF_app; [exact H |]. constructor; [discriminate | constructor].
  - apply trimTerminator_line, H.
  - apply trimTerminator_noLF, H.
Qed.

Lemma trimTerminator_cases_witness :
  trimTerminator (lit "a" ++ [CR] ++ [CR; LF]) = lit "a" ++ [CR] /\
  trimTerminator ((lit "a" ++ [CR]) ++ [LF]) = stripCR (lit "a" ++ [CR]) /\
  trimTerminator (lit "a" ++ [CR]) = lit "a" ++ [CR].
Proof.
  apply (trimTerminator_cases (lit "a" ++ [CR])).
  repeat constructor; discriminate.
Defined.

(** ** The scanner, seen from the text behind the cursor *)

Section ScannerAt.

Lemma takeUnits_dropUnits p s : takeUnits p s ++ dropUnits p s = s.
Proof.
  induction s as [| c s IH]; [reflexivity |].
  simpl. destruct (p [c]); [simpl; rewrite IH |]; reflexivity.
Qed.

Lemma peekNext_at line pre rest :
  line = pre ++ rest -> peekNext line (length pre) = (firstn 1 rest, length pre).
Proof.
  intros ->. destruct rest as [| c rest].
  - apply peekNext_at_end. rewrite app_nil_r. lia.
  - rewrite peekNext_in_range by (rewrite length_app; simpl; lia).
    rewrite app_nth2, Nat.sub_diag by lia. reflexivity.
Qed.

Lemma scanNext_at line pre c rest :
  line = pre ++ c :: rest ->
  scanNext line (length pre) = ([c], length (pre ++ [c])).
Proof.
  intros ->. rewrite scanNext_in_range by (rewrite length_app; simpl; lia).
  rewrite app_nth2, Nat.sub_diag, length_app by lia. reflexivity.
Qed.

Lemma scanStops_at line pre rest p :
  line = pre ++ rest ->
  scanStops line p (length pre) =
  match rest with [] => true | c :: _ => negb (p [c]) end.
Proof.
  intros E. unfold scanStops. rewrite (peekNext_at line pre rest E).
  destruct rest; reflexivity.
Qed.

Lemma scanWhile_loop_at p rest : forall line pre result,
  line = pre ++ rest ->
  scanWhile_loop line p result (length pre) =
  (result ++ takeUnits p rest, length (pre ++ takeUnits p rest)).
Proof.
  induction rest as [| c rest IH]; intros line pre result E;
    rewrite scanWhile_loop_unfold, (scanStops_at line pre _ p E).
  - simpl. rewrite !app_nil_r. reflexivity.
  - simpl. destruct (p [c]); simpl; [| rewrite !app_nil_r; reflexivity].
    rewrite (peekNext_at line pre _ E), (scanNext_at line pre c rest E).
    simpl fst. simpl snd.
    rewrite (IH line (pre ++ [c]) (result ++ [c]))
      by (rewrite <- app_assoc; exact E).
    rewrite <- !app_assoc. reflexivity.
Qed.

Lemma scanWhile_at line pre rest p :
  line = pre ++ rest ->
  scanWhile line p (length pre) =
  (takeUnits p rest, length (pre ++ takeUnits p rest)).
Proof. intros E. apply (scanWhile_loop_at p rest line pre [] E). Qed.

Lemma skip_at line pre rest x :
  line = pre ++ rest ->
  skip line [x] (length pre) =
  match rest with
  | c :: _ =>
      if Ascii.eqb c x then (true, length (pre ++ [c]))
      else (false, length pre)
  | [] => (false, length pre)
  end.
Proof.
  intros E. unfold skip, bind. rewrite (peekNext_at line pre rest E).
  destruct rest as [| c rest]; [reflexivity |].
  simpl. rewrite andb_true_r.
  destruct (Ascii.eqb c x); [| reflexivity].
  rewrite (scanNext_at line pre c rest E). reflexivity.
Qed.

Lemma skipSpaces_at line pre rest :
  line = pre ++ rest ->
  skipSpaces line (length pre) =
  (0 <? length (takeUnits isSpace rest),
   length (pre ++ takeUnits isSpace rest)).
Proof.
  intros E. unfold skipSpaces, bind, ret.
  rewrite (scanWhile_at line pre rest _ E). reflexivity.
Qed.

Lemma isEOF_at line pre rest :
  line = pre ++ rest ->
  isEOF line (length pre) = (negb (nonEmpty rest), length pre).
Proof.
  intros ->. unfold isEOF. rewrite length_app.
  destruct rest as [| c rest]; simpl.
  - rewrite Nat.add_0_r, Nat.leb_refl. reflexivity.
  - destruct (Nat.leb_spec (length pre + S (length rest)) (length pre));
      [lia | reflexivity].
Qed.

Lemma scanWhile_takeUnits line p index :
  scanWhile line p index =
  (takeUnits p (skipn index line),
   index + length (takeUnits p (skipn index line))).
Proof.
  destruct (Nat.le_gt_cases index (length line)) as [Hin | Hout].
  - assert (E : line = firstn index line ++ skipn index line)
      by (symmetry; apply firstn_skipn).
    assert (Hlen : length (firstn index line) = index)
      by (apply firstn_length_le; exact Hin).
    pose proof (scanWhile_at line _ _ p E) as H.
    rewrite length_app, Hlen in H. exact H.
  - rewrite skipn_all2 by lia. simpl. rewrite Nat.add_0_r.
    unfold scanWhile. rewrite scanWhile_loop_unfold. unfold scanStops.
    rewrite peekNext_at_end by lia. reflexivity.
Qed.

End ScannerAt.

(** X7: [scanWhile] returns the longest run of units from the cursor on
    that pass the test, and leaves the cursor behind that run; at or beyond
    the end of the line it returns the empty text and does not move. *)
Theorem scanWhile_longest_run (line : jsstring) (p : jsstring -> bool)
    (index : nat) :
  scanWhile line p index =
  (takeUnits p (skipn index line),
   index + length (takeUnits p (skipn index line))).
Proof. apply scanWhile_takeUnits. Qed.

(** ** One round of the parameter loop, and the loop on a line of the
    protocol *)

Section ParameterLoopAt.

Lemma notSpace_unit c : notSpace [c] = negb (Ascii.eqb c SP).
Proof. unfold notSpace. simpl. rewrite andb_true_r. reflexivity. Qed.

Lemma isSpace_unit c : isSpace [c] = Ascii.eqb c SP.
Proof. unfold isSpace. simpl. rewrite andb_true_r. reflexivity. Qed.

Lemma takeUnits_token t rest :
  noSP t -> headIs (fun c => c = SP) rest ->
  takeUnits notSpace (t ++ rest) = t.
Proof.
  intros Ht Hrest. induction Ht as [| c t Hc Ht IH]; simpl.
  - destruct rest as [| c rest]; [reflexivity |].
    simpl in Hrest. subst c. reflexivity.
  - rewrite notSpace_unit. apply Ascii.eqb_neq in Hc. rewrite Hc. simpl.
    rewrite IH. reflexivity.
Qed.

Lemma takeUnits_spaces k rest :
  headIs (fun c => c <> SP) rest ->
  takeUnits isSpace (repeat SP k ++ rest) = repeat SP k.
Proof.
  intros Hrest. induction k as [| k IH].
  - destruct rest as [| c rest]; [reflexivity |].
    simpl in *. rewrite isSpace_unit.
    apply Ascii.eqb_neq in Hrest. rewrite Hrest. reflexivity.
  - simpl. rewrite IH. reflexivity.
Qed.

Lemma takeUnits_all t : takeUnits (fun _ => true) t = t.
Proof. induction t as [| c t IH]; simpl; [| rewrite IH]; reflexivity. Qed.

Lemma takeUnits_noSP s : noSP (takeUnits notSpace s).
Proof.
  induction s as [| c s IH]; simpl; [constructor |].
  rewrite notSpace_unit.
  destruct (Ascii.eqb_spec c SP) as [| Hc]; simpl; constructor; assumption.
Qed.

(** A round that finds a colon at the cursor. *)
Lemma paramIteration_trailing line pre t m :
  line = pre ++ ":"%char :: t ->
  paramIteration line m (length pre) = ((true, push_param m t), length line).
Proof.
  intros E. unfold paramIteration, bind, ret.
  change (lit ":") with [":"%char].
  rewrite (skip_at line pre _ ":"%char E). simpl Ascii.eqb. cbv iota beta.
  rewrite (scanWhile_at line (pre ++ [":"%char]) t)
    by (rewrite <- app_assoc; exact E).
  rewrite takeUnits_all. subst line. rewrite <- app_assoc. reflexivity.
Qed.

(** A round that finds no colon at the cursor: it reads the units up to
    the next space, then the spaces. *)
Lemma paramIteration_token line pre tok k rest2 m :
  line = pre ++ tok ++ repeat SP k ++ rest2 ->
  noSP tok ->
  headIs (fun c => c <> ":"%char) (tok ++ repeat SP k ++ rest2) ->
  (k = 0 -> rest2 = []) ->
  headIs (fun c => c <> SP) rest2 ->
  paramIteration line m (length pre) =
  ((negb (nonEmpty rest2), push_param m tok),
   length (pre ++ tok ++ repeat SP k)).
Proof.
  intros E Htok Hcolon Hk Hrest2. unfold paramIteration, bind, ret.
  change (lit ":") with [":"%char].
  rewrite (skip_at line pre _ ":"%char E).
  assert (Hskip :
    match tok ++ repeat SP k ++ rest2 with
    | c :: _ =>
        if Ascii.eqb c ":"%char then (true, length (pre ++ [c]))
        else (false, length pre)
    | [] => (false, length pre)
    end = (false, length pre)).
  { destruct (tok ++ repeat SP k ++ rest2) as [| c r]; [reflexivity |].
    simpl in Hcolon. apply Ascii.eqb_neq in Hcolon. rewrite Hcolon.
    reflexivity. }
  rewrite Hskip. clear Hskip. cbv iota beta.
  rewrite (scanWhile_at line pre _ _ E).
  change (fun c : jsstring => negb (streq c (lit " "))) with notSpace.
  rewrite takeUnits_token; [| exact Htok |].
  2: { destruct k as [| k]; [rewrite (Hk eq_refl) | ]; simpl; auto. }
  rewrite (skipSpaces_at line (pre ++ tok) (repeat SP k ++ rest2))
    by (rewrite <- app_assoc; exact E).
  rewrite (takeUnits_spaces k rest2 Hrest2).
  rewrite <- app_assoc.
  rewrite (isEOF_at line (pre ++ tok ++ repeat SP k) rest2)
    by (rewrite <- !app_assoc; exact E).
  reflexivity.
Qed.

Lemma middle_head_not_SP t rest :
  middle t -> headIs (fun c => c <> SP) (t ++ rest).
Proof.
  intros (Ht & c & t' & -> & _). inversion Ht; subst. simpl. assumption.
Qed.

Lemma middle_head_not_colon t rest :
  middle t -> headIs (fun c => c <> ":"%char) (t ++ rest).
Proof. intros (_ & c & t' & -> & Hc). exact Hc. Qed.

Lemma rest_head_not_SP toks e :
  Forall (fun tk => middle (fst tk)) toks -> endingOK e ->
  headIs (fun c => c <> SP) (spaced toks ++ endingText e).
Proof.
  intros Htoks He. destruct toks as [| [t k] toks].
  - destruct e as [| t | t]; simpl; auto; [discriminate |].
    rewrite <- (app_nil_r t). apply middle_head_not_SP, He.
  - inversion Htoks as [| ? ? Ht _]; subst. simpl spaced.
    rewrite <- !app_assoc. apply middle_head_not_SP, Ht.
Qed.

Lemma rest_nonEmpty toks e :
  Forall (fun tk => middle (fst tk)) toks -> endingOK e ->
  toks <> [] \/ e <> NoMore ->
  nonEmpty (spaced toks ++ endingText e) = true.
Proof.
  intros Htoks He Hne. destruct toks as [| [t k] toks].
  - destruct e as [| t | t]; simpl.
    + destruct Hne; congruence.
    + reflexivity.
    + destruct He as (_ & c & t' & -> & _). reflexivity.
  - inversion Htoks as [| ? ? (_ & c & t' & E & _) _]; subst.
    simpl in E. subst t. reflexivity.
Qed.

(** The loop on spaced parameters and an ending. *)
Lemma paramLoop_at toks : forall line pre m e,
  line = pre ++ spaced toks ++ endingText e ->
  Forall (fun tk => middle (fst tk)) toks -> endingOK e ->
  toks <> [] \/ e <> NoMore ->
  paramLoop line m (length pre) =
  {| prefix := prefix m; command := command m;
     params := params m ++ map fst toks ++ endingParams e |}.
Proof.
  induction toks as [| [t k] toks IH]; intros line pre m e E Htoks He Hne;
    rewrite paramLoop_unfold.
  - destruct e as [| t | t]; simpl in E.
    + destruct Hne; congruence.
    + rewrite (paramIteration_trailing line pre t m E). reflexivity.
    + rewrite (paramIteration_token line pre t 0 [] m);
        [reflexivity | rewrite app_nil_r; exact E | apply He | | auto
        | exact I ].
      apply middle_head_not_colon, He.
  - apply Forall_cons_iff in Htoks. destruct Htoks as [Ht Htoks'].
    simpl fst in Ht. simpl spaced in E. rewrite <- !app_assoc in E.
    change (fst (t, k) ++ repeat SP (S (snd (t, k))) ++
              flat_map (fun tk => fst tk ++ repeat SP (S (snd tk))) toks ++
              endingText e)
      with (t ++ repeat SP (S k) ++ spaced toks ++ endingText e) in E.
    rewrite (paramIteration_token line pre t (S k)
               (spaced toks ++ endingText e) m E (proj1 Ht)
               (middle_head_not_colon t _ Ht)
               ltac:(discriminate)
               (rest_head_not_SP toks e Htoks' He)).
    destruct toks as [| tk toks'].
    + destruct e as [| t' | t'].
      * simpl. reflexivity.
      * simpl nonEmpty. cbv iota beta. simpl negb. cbv iota.
        rewrite (IH line (pre ++ t ++ repeat SP (S k)) (push_param m t)
                   (Trailing t'));
          [| rewrite <- !app_assoc; exact E | constructor | exact I
           | right; discriminate].
        simpl. rewrite <- app_assoc. reflexivity.
      * rewrite (rest_nonEmpty [] (LastToken t') Htoks' He)
          by (right; discriminate).
        simpl negb. cbv iota.
        rewrite (IH line (pre ++ t ++ repeat SP (S k)) (push_param m t)
                   (LastToken t'));
          [| rewrite <- !app_assoc; exact E | constructor | exact He
           | right; discriminate].
        simpl. rewrite <- app_assoc. reflexivity.
    + rewrite (rest_nonEmpty (tk :: toks') e Htoks' He)
        by (left; discriminate).
      simpl negb. cbv iota.
      rewrite (IH line (pre ++ t ++ repeat SP (S k)) (push_param m t) e);
        [| rewrite <- !app_assoc; exact E | exact Htoks' | exact He
         | left; discriminate].
      simpl. rewrite <- app_assoc. reflexivity.
Qed.

(** The loop entered at the end of the line. *)
Lemma paramLoop_at_end line m :
  paramLoop line m (length line) = push_param m [].
Proof.
  rewrite paramLoop_unfold.
  rewrite (paramIteration_token line line [] 0 [] m);
    [reflexivity | rewrite app_nil_r; reflexivity | constructor | exact I
    | auto | exact I].
Qed.

End ParameterLoopAt.

(** ** The parser, stage by stage *)

Section ParserStages.

Definition emptyMessage : IRCMessage :=
  {| prefix := None; command := []; params := [] |}.

Lemma parseIRCMessage_stages line :
  parseIRCMessage line =
  Some (let '((returns1, m1), i1) := parsePrefix line emptyMessage 0 in
        if returns1 then m1
        else
          let '((returns2, m2), i2) := parseCommand line m1 i1 in
          if returns2 then m2 else paramLoop line m2 i2).
Proof.
  unfold parseIRCMessage, bind, ret, parseParams.
  fold emptyMessage.
  destruct (parsePrefix line emptyMessage 0) as [[returns1 m1] i1]. simpl.
  destruct returns1; [reflexivity |].
  destruct (parseCommand line m1 i1) as [[returns2 m2] i2]. simpl.
  destruct returns2; reflexivity.
Qed.

Lemma parseCommand_at line pre rest m :
  line = pre ++ rest ->
  parseCommand line m (length pre) =
  ((negb (0 <? length (takeUnits isSpace (dropUnits notSpace rest))),
    set_command m (takeUnits notSpace rest)),
   length (pre ++ takeUnits notSpace rest
             ++ takeUnits isSpace (dropUnits notSpace rest))).
Proof.
  intros E. unfold parseCommand, bind, ret.
  rewrite (scanWhile_at line pre rest _ E).
  change (fun c : jsstring => negb (streq c (lit " "))) with notSpace.
  rewrite (skipSpaces_at line (pre ++ takeUnits notSpace rest)
             (dropUnits notSpace rest))
    by (rewrite <- app_assoc, takeUnits_dropUnits; exact E).
  rewrite <- app_assoc. reflexivity.
Qed.

Lemma parsePrefix_at line m :
  parsePrefix line m 0 =
  match line with
  | c :: r =>
      if Ascii.eqb c ":"%char
      then
        ((negb (0 <? length (takeUnits isSpace (dropUnits notSpace r))),
          set_prefix m (Some (takeUnits notSpace r))),
         length ([c] ++ takeUnits notSpace r
                   ++ takeUnits isSpace (dropUnits notSpace r)))
      else ((false, m), 0)
  | [] => ((false, m), 0)
  end.
Proof.
  unfold parsePrefix, bind, ret. change (lit ":") with [":"%char].
  pose proof (skip_at line [] line ":"%char eq_refl) as Hskip.
  change (length (@nil ascii)) with 0 in Hskip. rewrite Hskip. clear Hskip.
  destruct line as [| c r]; [reflexivity |].
  destruct (Ascii.eqb c ":"%char); [| reflexivity].
  cbv iota beta.
  rewrite (scanWhile_at (c :: r) [c] r _ eq_refl).
  change (fun c : jsstring => negb (streq c (lit " "))) with notSpace.
  rewrite (skipSpaces_at (c :: r) ([c] ++ takeUnits notSpace r)
             (dropUnits notSpace r))
    by (rewrite <- app_assoc, takeUnits_dropUnits; reflexivity).
  rewrite <- app_assoc. reflexivity.
Qed.

Lemma dropUnits_token t rest :
  noSP t -> headIs (fun c => c = SP) rest ->
  dropUnits notSpace (t ++ rest) = rest.
Proof.
  intros Ht Hrest. induction Ht as [| c t Hc Ht IH]; simpl.
  - destruct rest as [| c rest]; [reflexivity |].
    simpl in Hrest. subst c. reflexivity.
  - rewrite notSpace_unit. apply Ascii.eqb_neq in Hc. rewrite Hc. simpl.
    exact IH.
Qed.

Lemma dropUnits_spaces k rest :
  headIs (fun c => c <> SP) rest ->
  dropUnits isSpace (repeat SP k ++ rest) = rest.
Proof.
  intros Hrest. induction k as [| k IH]; [| exact IH].
  destruct rest as [| c rest]; [reflexivity |].
  simpl in *. rewrite isSpace_unit.
  apply Ascii.eqb_neq in Hrest. rewrite Hrest. reflexivity.
Qed.

Lemma headIs_spaces k rest :
  (k = 0 -> rest = []) -> headIs (fun c => c = SP) (repeat SP k ++ rest).
Proof.
  intros H. destruct k as [| k]; [rewrite (H eq_refl) |]; simpl; auto.
Qed.

Lemma ltb_length_repeat k : (0 <? length (repeat SP k)) = (0 <? k).
Proof. rewrite repeat_length. reflexivity. Qed.

(** The command stage on a command followed by spaces. *)
Lemma parseCommand_token line pre cmd k rest m :
  line = pre ++ cmd ++ repeat SP k ++ rest ->
  noSP cmd -> (k = 0 -> rest = []) -> headIs (fun c => c <> SP) rest ->
  parseCommand line m (length pre) =
  ((negb (0 <? k), set_command m cmd), length (pre ++ cmd ++ repeat SP k)).
Proof.
  intros E Hcmd Hk Hrest. rewrite (parseCommand_at line pre _ m E).
  rewrite (takeUnits_token cmd _ Hcmd (headIs_spaces k rest Hk)).
  rewrite (dropUnits_token cmd _ Hcmd (headIs_spaces k rest Hk)).
  rewrite (takeUnits_spaces k rest Hrest), ltb_length_repeat. reflexivity.
Qed.

(** The prefix stage on a prefix followed by spaces. *)
Lemma parsePrefix_token line pfx k rest m :
  line = ":"%char :: pfx ++ repeat SP k ++ rest ->
  noSP pfx -> (k = 0 -> rest = []) -> headIs (fun c => c <> SP) rest ->
  parsePrefix line m 0 =
  ((negb (0 <? k), set_prefix m (Some pfx)),
   length ([":"%char] ++ pfx ++ repeat SP k)).
Proof.
  intros -> Hpfx Hk Hrest. rewrite parsePrefix_at. simpl Ascii.eqb. cbv iota.
  rewrite (takeUnits_token pfx _ Hpfx (headIs_spaces k rest Hk)).
  rewrite (dropUnits_token pfx _ Hpfx (headIs_spaces k rest Hk)).
  rewrite (takeUnits_spaces k rest Hrest), ltb_length_repeat. reflexivity.
Qed.

Lemma parsePrefix_absent line m :
  headIs (fun c => c <> ":"%char) line -> parsePrefix line m 0 = ((false, m), 0).
Proof.
  intros H. rewrite parsePrefix_at. destruct line as [| c r]; [reflexivity |].
  simpl in H. apply Ascii.eqb_neq in H. rewrite H. reflexivity.
Qed.

(** The parameters of a line that goes on after the command. *)
Lemma paramLoop_rest line pre m toks e :
  line = pre ++ spaced toks ++ endingText e ->
  Forall (fun tk => middle (fst tk)) toks -> endingOK e ->
  paramLoop line m (length pre) =
  {| prefix := prefix m; command := command m;
     params := params m ++
               match toks, e with
               | [], NoMore => [[]]
               | _, _ => map fst toks ++ endingParams e
               end |}.
Proof.
  intros E Htoks He.
  destruct toks as [| tk toks].
  - destruct e as [| t | t].
    + simpl in E. rewrite app_nil_r in E. subst pre.
      apply paramLoop_at_end.
    + apply (paramLoop_at [] line pre m (Trailing t) E Htoks He).
      right. discriminate.
    + apply (paramLoop_at [] line pre m (LastToken t) E Htoks He).
      right. discriminate.
  - rewrite (paramLoop_at (tk :: toks) line pre m e E Htoks He)
      by (left; discriminate).
    destruct e; reflexivity.
Qed.

End ParserStages.

(** The parser on a line of the protocol. *)
Lemma parseIRCMessage_wireLine (p : option (jsstring * nat)) (cmd : jsstring)
    (k0 : nat) (toks : list (jsstring * nat)) (e : ending) :
  match p with Some (pfx, _) => noSP pfx | None => True end ->
  middle cmd ->
  Forall (fun tk => middle (fst tk)) toks ->
  endingOK e ->
  parseIRCMessage (wireLine p cmd k0 toks e) =
  Some {| prefix := option_map fst p;
          command := cmd;
          params := match toks, e with
                    | [], NoMore => [[]]
                    | _, _ => map fst toks ++ endingParams e
                    end |}.
Proof.
  intros Hp Hcmd Htoks He. rewrite parseIRCMessage_stages.
  pose proof (rest_head_not_SP toks e Htoks He) as Hrest.
  set (rest := spaced toks ++ endingText e) in *.
  destruct p as [[pfx kp] |].
  - set (pre1 := [":"%char] ++ pfx ++ repeat SP (S kp)).
    set (line := wireLine _ _ _ _ _).
    assert (E0 : line = ":"%char :: pfx ++ repeat SP (S kp)
                          ++ cmd ++ repeat SP (S k0) ++ rest).
    { subst line. unfold wireLine. simpl. rewrite <- !app_assoc.
      reflexivity. }
    assert (E1 : line = pre1 ++ cmd ++ repeat SP (S k0) ++ rest).
    { rewrite E0. subst pre1. simpl. rewrite <- !app_assoc. reflexivity. }
    assert (E2 : line = (pre1 ++ cmd ++ repeat SP (S k0))
                          ++ spaced toks ++ endingText e).
    { rewrite E1, <- !app_assoc. reflexivity. }
    rewrite (parsePrefix_token line pfx (S kp) _ emptyMessage E0 Hp
               ltac:(discriminate) (middle_head_not_SP cmd _ Hcmd)).
    simpl negb. cbv iota. fold pre1.
    rewrite (parseCommand_token line pre1 cmd (S k0) rest _ E1
               (proj1 Hcmd) ltac:(discriminate) Hrest).
    simpl negb. cbv iota.
    rewrite (paramLoop_rest line _ _ toks e E2 Htoks He).
    reflexivity.
  - set (line := wireLine _ _ _ _ _).
    assert (E1 : line = [] ++ cmd ++ repeat SP (S k0) ++ rest)
      by reflexivity.
    assert (E2 : line = (cmd ++ repeat SP (S k0))
                          ++ spaced toks ++ endingText e).
    { rewrite E1. simpl. rewrite <- !app_assoc. reflexivity. }
    rewrite (parsePrefix_absent line emptyMessage).
    2: { rewrite E1. apply (middle_head_not_colon cmd _ Hcmd). }
    pose proof (parseCommand_token line [] cmd (S k0) rest emptyMessage E1
                  (proj1 Hcmd) ltac:(discriminate) Hrest) as Hc.
    change (length (@nil ascii)) with 0 in Hc.
    change ([] ++ cmd ++ repeat SP (S k0))
      with (cmd ++ repeat SP (S k0)) in Hc.
    rewrite Hc. clear Hc. simpl negb. cbv iota.
    rewrite (paramLoop_rest line _ _ toks e E2 Htoks He).
    reflexivity.
Qed.

(** X8: a line of the protocol, with or without prefix, with one or more
    spaces wherever one is due, parses to its prefix, its command and its
    parameters in order, the trailing parameter taken as it is; when nothing
    follows the spaces after the command, the parameters are the single
    empty parameter. *)
Theorem parse_wire_line (p : option (jsstring * nat)) (cmd : jsstring)
    (k0 : nat) (toks : list (jsstring * nat)) (e : ending) :
  match p with Some (pfx, _) => noSP pfx | None => True end ->
  middle cmd ->
  Forall (fun tk => middle (fst tk)) toks ->
  endingOK e ->
  parseIRCMessage (wireLine p cmd k0 toks e) =
  Some {| prefix := option_map fst p;
          command := cmd;
          params := match toks, e with
                    | [], NoMore => [[]]
                    | _, _ => map fst toks ++ endingParams e
                    end |}.
Proof. apply parseIRCMessage_wireLine. Qed.

Ltac solve_noSP := repeat constructor; discriminate.
Ltac solve_middle :=
  split; [solve_noSP | eexists _, _; split; [reflexivity | discriminate]].

Lemma parse_wire_line_witness :
  parseIRCMessage
    (wireLine (Some (lit "nick!user@host", 0)) (lit "PRIVMSG") 1
              [(lit "#chan", 2)] (Trailing (lit "hello  world"))) =
  Some {| prefix := Some (lit "nick!user@host"); command := lit "PRIVMSG";
          params := [lit "#chan"; lit "hello  world"] |}.
Proof.
  apply (parse_wire_line (Some (lit "nick!user@host", 0)) (lit "PRIVMSG") 1
           [(lit "#chan", 2)] (Trailing (lit "hello  world"))).
  - solve_noSP.
  - solve_middle.
  - constructor; [solve_middle | constructor].
  - exact I.
Defined.

Section ParserShape.

Lemma noSP_head t : noSP t -> headIs (fun c => c <> SP) t.
Proof. intros H. destruct H; simpl; auto. Qed.

(** What a round of the parameter loop does to the message. *)
Lemma paramIteration_outcome line m index :
  exists param,
    snd (fst (paramIteration line m index)) = push_param m param /\
    (fst (fst (paramIteration line m index)) = false -> noSP param).
Proof.
  unfold paramIteration, bind, ret.
  destruct (skip line (lit ":") index) as [colon i1].
  destruct colon.
  - destruct (scanWhile line (fun _ => true) i1) as [trailing i2].
    exists trailing. simpl. split; [reflexivity | discriminate].
  - rewrite scanWhile_takeUnits.
    change (fun c : jsstring => negb (streq c (lit " "))) with notSpace.
    destruct (skipSpaces line _) as [spaces i3].
    destruct (isEOF line i3) as [eof i4].
    exists (takeUnits notSpace (skipn i1 line)). simpl.
    split; [reflexivity | intros _; apply takeUnits_noSP].
Qed.

(** The loop keeps the prefix and the command, and adds parameters of which
    all but the last are without space. *)
Lemma paramLoop_keeps line fuel : forall m index,
  length line - index < fuel ->
  prefix (paramLoop line m index) = prefix m /\
  command (paramLoop line m index) = command m /\
  exists added,
    params (paramLoop line m index) = params m ++ added /\
    added <> [] /\ Forall noSP (removelast added).
Proof.
  induction fuel as [| fuel IH]; intros m index Hfuel; [lia |].
  rewrite paramLoop_unfold.
  destruct (paramIteration_outcome line m index) as (param & Hm & Hparam).
  destruct (paramIteration line m index) as [[returns m'] index'] eqn:E.
  simpl in Hm, Hparam. subst m'. destruct returns.
  - simpl. repeat split. exists [param]. repeat split; [discriminate |].
    constructor.
  - apply paramIteration_progress in E.
    destruct (IH (push_param m param) index' ltac:(lia))
      as (Hp & Hc & added & Ha & Hne & Hsp).
    rewrite Hp, Hc, Ha. simpl. repeat split.
    exists (param :: added). rewrite <- app_assoc. repeat split.
    + discriminate.
    + destruct added as [| a added]; [congruence |].
      change (removelast (param :: a :: added))
        with (param :: removelast (a :: added)).
      constructor; [apply Hparam; reflexivity | exact Hsp].
Qed.

Lemma dropUnits_notSpace_head s :
  headIs (fun c => c = SP) (dropUnits notSpace s).
Proof.
  induction s as [| c s IH]; simpl; [exact I |].
  rewrite notSpace_unit.
  destruct (Ascii.eqb_spec c SP) as [-> | Hc]; simpl; [reflexivity | exact IH].
Qed.

Lemma takeUnits_isSpace_none s :
  headIs (fun c => c = SP) s ->
  (0 <? length (takeUnits isSpace s)) = false -> s = [].
Proof.
  destruct s as [| c s]; [reflexivity |].
  simpl. intros ->. rewrite isSpace_unit. simpl. discriminate.
Qed.

(** The message the parser returns, part by part. *)
Lemma parse_shape line :
  exists m,
    parseIRCMessage line = Some m /\
    prefix m = prefixOf line /\
    command m = takeUnits notSpace (afterPrefix line) /\
    Forall noSP (removelast (params m)).
Proof.
  rewrite parseIRCMessage_stages. eexists. split; [reflexivity |].
  rewrite parsePrefix_at. unfold prefixOf, afterPrefix.
  destruct line as [| c r].
  - pose proof (parseCommand_at [] [] [] emptyMessage eq_refl) as Hc.
    change (length (@nil ascii)) with 0 in Hc. rewrite Hc.
    simpl. auto.
  - destruct (Ascii.eqb c ":"%char).
    + set (pfx := takeUnits notSpace r).
      set (d := dropUnits notSpace r).
      set (sp := takeUnits isSpace d).
      destruct (0 <? length sp) eqn:Hsp; simpl negb; cbv iota.
      * assert (E : c :: r = ([c] ++ pfx ++ sp) ++ dropUnits isSpace d).
        { subst pfx d sp. rewrite <- !app_assoc.
          rewrite takeUnits_dropUnits, takeUnits_dropUnits. reflexivity. }
        rewrite (parseCommand_at (c :: r) _ _ _ E).
        destruct (negb _).
        -- simpl. repeat split. constructor.
        -- destruct (paramLoop_keeps (c :: r) (S (length (c :: r)))
                       (set_command (set_prefix emptyMessage (Some pfx))
                          (takeUnits notSpace (dropUnits isSpace d)))
                       (length (([c] ++ pfx ++ sp) ++
                          takeUnits notSpace (dropUnits isSpace d) ++
                          takeUnits isSpace
                            (dropUnits notSpace (dropUnits isSpace d))))
                       ltac:(lia))
             as (Hp & Hc & added & Ha & _ & Hsp').
           rewrite Hp, Hc, Ha. simpl. auto.
      * simpl. repeat split; [| constructor].
        subst sp.
        rewrite (takeUnits_isSpace_none d (dropUnits_notSpace_head r) Hsp).
        reflexivity.
    + pose proof (parseCommand_at (c :: r) [] (c :: r) emptyMessage eq_refl)
        as Hc.
      change (length (@nil ascii)) with 0 in Hc. rewrite Hc. clear Hc.
      destruct (negb _).
      * simpl. repeat split. constructor.
      * match goal with
        | |- context [paramLoop ?l ?m ?i] =>
            destruct (paramLoop_keeps l (S (length l)) m i ltac:(lia))
              as (Hp & Hc & added & Ha & _ & Hsp')
        end.
        rewrite Hp, Hc, Ha. simpl. auto.
Qed.

End ParserShape.

(** X9: for every line, the prefix of the message is the text between a
    colon at the beginning of the line and the first space, and there is
    none when the line does not begin with a colon; the command is the text
    up to the next space, read behind the prefix and the spaces after it. *)
Theorem parse_prefix_and_command (line : jsstring) :
  exists m,
    parseIRCMessage line = Some m /\
    prefix m = prefixOf line /\
    command m = takeUnits notSpace (afterPrefix line).
Proof.
  destruct (parse_shape line) as (m & E & Hp & Hc & _).
  exists m. auto.
Qed.

(** X10: in the message of any line, the command, the prefix and every
    parameter but the last hold no space. *)
Theorem parse_tokens_without_space (line : jsstring) :
  exists m,
    parseIRCMessage line = Some m /\
    noSP (command m) /\
    match prefix m with Some p => noSP p | None => True end /\
    Forall noSP (removelast (params m)).
Proof.
  destruct (parse_shape line) as (m & E & Hp & Hc & Hparams).
  exists m. split; [exact E |]. rewrite Hp, Hc.
  split; [apply takeUnits_noSP |]. split; [| exact Hparams].
  unfold prefixOf. destruct line as [| c r]; [exact I |].
  destruct (Ascii.eqb c ":"%char); [apply takeUnits_noSP | exact I].
Qed.

(** X11: a line without space behind its command has no parameters: a
    command alone, a prefix alone, and a prefix with a command. *)
Theorem parse_without_parameters (pfx cmd : jsstring) (k : nat) :
  noSP pfx -> noSP cmd -> headIs (fun c => c <> ":"%char) cmd ->
  parseIRCMessage cmd =
    Some {| prefix := None; command := cmd; params := [] |} /\
  parseIRCMessage (":"%char :: pfx) =
    Some {| prefix := Some pfx; command := []; params := [] |} /\
  parseIRCMessage (":"%char :: pfx ++ repeat SP (S k) ++ cmd) =
    Some {| prefix := Some pfx; command := cmd; params := [] |}.
Proof.
  intros Hpfx Hcmd Hcolon. rewrite !parseIRCMessage_stages.
  split; [| split].
  - rewrite (parsePrefix_absent cmd emptyMessage Hcolon).
    pose proof (parseCommand_token cmd [] cmd 0 [] emptyMessage
                  ltac:(simpl; rewrite app_nil_r; reflexivity)
                  Hcmd ltac:(auto) I) as Hc.
    change (length (@nil ascii)) with 0 in Hc. rewrite Hc. reflexivity.
  - rewrite (parsePrefix_token (":"%char :: pfx) pfx 0 [] emptyMessage
               ltac:(simpl; rewrite app_nil_r; reflexivity)
               Hpfx ltac:(auto) I).
    reflexivity.
  - rewrite (parsePrefix_token _ pfx (S k) cmd emptyMessage eq_refl
               Hpfx ltac:(discriminate) (noSP_head cmd Hcmd)).
    simpl negb. cbv iota.
    erewrite (parseCommand_token _ _ cmd 0 []);
      [reflexivity
      | simpl; rewrite <- !app_assoc, app_nil_r; reflexivity
      | exact Hcmd | auto | exact I].
Qed.

Lemma parse_without_parameters_witness :
  parseIRCMessage (lit "QUIT") =
    Some {| prefix := None; command := lit "QUIT"; params := [] |} /\
  parseIRCMessage (":"%char :: lit "irc.example.net") =
    Some {| prefix := Some (lit "irc.example.net"); command := [];
            params := [] |} /\
  parseIRCMessage (":"%char :: lit "irc.example.net" ++ repeat SP 2
                     ++ lit "QUIT") =
    Some {| prefix := Some (lit "irc.example.net"); command := lit "QUIT";
            params := [] |}.
Proof.
  apply (parse_without_parameters (lit "irc.example.net") (lit "QUIT") 1).
  - solve_noSP.
  - solve_noSP.
  - simpl. discriminate.
Defined.

(** ** What is sent, read back *)

Section RoundTrip.

Lemma sends_written ms : forall socket,
  fold_left (fun s m => send m s) ms socket = socket ++ map send_data ms.
Proof.
  induction ms as [| m ms IH]; intros socket; simpl.
  - rewrite app_nil_r. reflexivity.
  - rewrite IH. unfold send, send_next, write_next.
    rewrite <- app_assoc. reflexivity.
Qed.

Lemma join_spaced init :
  init <> [] ->
  join (lit " ") init ++ lit " " = spaced (map (fun t => (t, 0)) init).
Proof.
  induction init as [| t init IH]; intros Hne; [congruence |].
  destruct init as [| t' init].
  - simpl. rewrite app_nil_r. reflexivity.
  - rewrite join_cons by discriminate. rewrite <- !app_assoc.
    rewrite IH by discriminate. unfold spaced. simpl.
    rewrite <- !app_assoc. reflexivity.
Qed.

Lemma send_data_sentLine p c init lastp :
  send_data {| prefix := p; command := c; params := init ++ [lastp] |} =
  sentLine c init lastp ++ [CR; LF].
Proof.
  rewrite send_data_snoc. unfold sentLine, wireLine. simpl app at 1.
  destruct init as [| t init].
  - simpl. rewrite <- !app_assoc. reflexivity.
  - rewrite <- (join_spaced (t :: init)) by discriminate.
    simpl endingText. rewrite <- !app_assoc. reflexivity.
Qed.

Lemma noLF_repeat_SP k : noLF (repeat SP k).
Proof. induction k; simpl; constructor; [discriminate | assumption]. Qed.

Lemma noLF_sentLine c init lastp :
  noLF c -> Forall noLF init -> noLF lastp -> noLF (sentLine c init lastp).
Proof.
  intros Hc Hinit Hlast. unfold sentLine, wireLine. cbn [app].
  apply noLF_app; [exact Hc |].
  apply noLF_app; [apply noLF_repeat_SP |].
  apply noLF_app.
  - induction Hinit as [| t init Ht _ IH]; [constructor |].
    simpl. apply noLF_app; [| exact IH].
    apply noLF_app; [exact Ht | apply (noLF_repeat_SP 1)].
  - simpl. constructor; [discriminate | exact Hlast].
Qed.

Lemma parse_sentLine c init lastp :
  middle c -> Forall middle init ->
  parseIRCMessage (sentLine c init lastp) =
  Some {| prefix := None; command := c; params := init ++ [lastp] |}.
Proof.
  intros Hc Hinit. unfold sentLine.
  rewrite parseIRCMessage_wireLine; [| exact I | exact Hc | | exact I].
  - rewrite map_map. simpl fst. rewrite map_id.
    destruct init; reflexivity.
  - induction Hinit; constructor; assumption.
Qed.

(** The body of the line of a sendable message, and what it parses to. *)
Lemma sendable_line m :
  sendable m ->
  exists body,
    send_data m = body ++ [CR; LF] /\ noLF body /\
    parseIRCMessage body = Some (withoutPrefix m).
Proof.
  intros (Hc & Hlf & init & lastp & Hp & Hinit & Hinitlf & Hlast).
  destruct m as [p c ps]. simpl in *. subst ps.
  exists (sentLine c init lastp). split; [apply send_data_sentLine |].
  split; [apply noLF_sentLine; assumption |].
  apply parse_sentLine; assumption.
Qed.

Lemma sent_read_back ms :
  Forall sendable ms ->
  messages [concat (map send_data ms)] = map withoutPrefix ms.
Proof.
  intros Hms.
  assert (H : exists bodies,
             concat (map send_data ms) = framed [CR; LF] bodies /\
             Forall noLF bodies /\
             messages_of_lines bodies = map withoutPrefix ms).
  { induction Hms as [| m ms Hm _ (bodies & E & Hlf & Hparse)].
    - exists []. repeat split. constructor.
    - destruct (sendable_line m Hm) as (body & Eb & Hb & Hpb).
      exists (body :: bodies). simpl. rewrite Eb, E.
      repeat split; [constructor; assumption |].
      unfold messages_of_lines in *. simpl. unfold parsedLine at 1.
      rewrite Hpb, Hparse. reflexivity. }
  destruct H as (bodies & E & Hlf & Hparse).
  unfold messages. rewrite <- Hparse. f_equal.
  rewrite E. apply lines_framed_CRLF, Hlf.
Qed.

Lemma messages_whole data : messages [concat data] = messages data.
Proof. unfold messages. rewrite lines_whole. reflexivity. Qed.

Lemma sent_read_back_chunks ms chunks :
  Forall sendable ms ->
  concat chunks = concat (fold_left (fun s m => send m s) ms []) ->
  messages chunks = map withoutPrefix ms.
Proof.
  intros Hms E. rewrite <- messages_whole, E, sends_written. simpl app.
  apply sent_read_back, Hms.
Qed.

Lemma streq_refl a : streq a a = true.
Proof. apply streq_spec. reflexivity. Qed.

Lemma onceConnect_armed events :
  onceConnect true events = if existsb isConnect events then [true] else [].
Proof.
  induction events as [| [| d] events IH]; simpl.
  - reflexivity.
  - apply f_equal, onceConnect_disarmed.
  - exact IH.
Qed.

End RoundTrip.

(** X12: what the client writes for sendable messages, read back from the
    wire in any chunks, gives the same messages in order, each without
    prefix. *)
Theorem sent_messages_read_back (ms : list IRCMessage)
    (chunks : list jsstring) :
  Forall sendable ms ->
  concat chunks = concat (fold_left (fun s m => send m s) ms []) ->
  messages chunks = map withoutPrefix ms.
Proof. apply sent_read_back_chunks. Qed.

Ltac solve_noLF := repeat constructor; discriminate.

Lemma sent_messages_read_back_witness :
  messages [lit "USER u . . :Real Na";
            lit "me" ++ [CR; LF] ++ lit "NICK  :n" ++ [CR]; [LF]] =
  map withoutPrefix
      [{| prefix := None; command := lit "USER";
          params := [lit "u"; lit "."; lit "."; lit "Real Name"] |};
       {| prefix := Some (lit "me"); command := lit "NICK";
          params := [lit "n"] |}].
Proof.
  apply (sent_messages_read_back
           [{| prefix := None; command := lit "USER";
               params := [lit "u"; lit "."; lit "."; lit "Real Name"] |};
            {| prefix := Some (lit "me"); command := lit "NICK";
               params := [lit "n"] |}]).
  - constructor; [| constructor; [| constructor]].
    + split; [solve_middle |]. split; [solve_noLF |].
      exists [lit "u"; lit "."; lit "."], (lit "Real Name").
      split; [reflexivity |]. split; [| split; solve_noLF].
      repeat (constructor; [solve_middle |]). constructor.
    + split; [solve_middle |]. split; [solve_noLF |].
      exists [], (lit "n").
      split; [reflexivity |]. split; [constructor | split; solve_noLF].
  - reflexivity.
Defined.

(** X13: a PING with one parameter that arrives on the wire, in any
    chunks, is answered by exactly one write: PONG, two spaces, a colon and
    the parameter, then CR LF. *)
Theorem ping_on_the_wire_is_answered (k : nat) (e : ending) (t : jsstring)
    (chunks : list jsstring) (socket : Socket) :
  endingOK e -> endingParams e = [t] -> noLF t ->
  concat chunks =
    wireLine None (lit "PING") k [] e ++ [CR; LF] ->
  keepAlive (messages chunks) socket =
    socket ++ [lit "PONG  :" ++ t ++ [CR; LF]].
Proof.
  intros He Ht Hlf E.
  assert (Hbody : noLF (wireLine None (lit "PING") k [] e)).
  { unfold wireLine. cbn [app].
    apply noLF_app; [repeat constructor; discriminate |].
    apply noLF_app; [apply noLF_repeat_SP |].
    destruct e as [| t' | t']; simpl in *; try discriminate;
      inversion Ht; subst; [constructor; [discriminate | exact Hlf] |
                            exact Hlf]. }
  assert (Hparse : parseIRCMessage (wireLine None (lit "PING") k [] e) =
                   Some {| prefix := None; command := lit "PING";
                           params := [t] |}).
  { rewrite parseIRCMessage_wireLine;
      [| exact I | solve_middle | constructor | exact He].
    simpl. destruct e; simpl in *; try discriminate; rewrite Ht;
      reflexivity. }
  rewrite <- messages_whole, E. unfold messages.
  match goal with
  | |- context [lines ?a] =>
      assert (HL : lines a = [wireLine None (lit "PING") k [] e])
  end.
  { replace (wireLine None (lit "PING") k [] e ++ [CR; LF])
      with (framed [CR; LF] [wireLine None (lit "PING") k [] e])
      by (unfold framed; simpl; rewrite app_nil_r; reflexivity).
    apply lines_framed_CRLF. constructor; [exact Hbody | constructor]. }
  rewrite HL. unfold messages_of_lines. cbn [flat_map]. unfold parsedLine.
  rewrite Hparse. reflexivity.
Qed.

Lemma ping_on_the_wire_is_answered_witness :
  keepAlive (messages [lit "PING :a"; lit "bc" ++ [CR; LF]]) [] =
  [] ++ [lit "PONG  :" ++ lit "abc" ++ [CR; LF]].
Proof.
  apply (ping_on_the_wire_is_answered 0 (Trailing (lit "abc")) (lit "abc")).
  - exact I.
  - reflexivity.
  - solve_noLF.
  - reflexivity.
Defined.

(** X14: on [RxSocket] the lifecycle signal is [false], followed by one
    [true] when the socket connects, however often it does; so the client
    writes the USER and NICK pair once when the socket connects, and nothing
    before. *)
Theorem handshake_on_RxSocket (options : Options)
    (events : list SocketEvent) :
  connected events =
    false :: (if existsb isConnect events then [true] else []) /\
  handshake options (connected events) [] =
    (if existsb isConnect events then handshakeWrites options else []).
Proof.
  unfold connected. rewrite onceConnect_armed.
  destruct (existsb isConnect events); split; reflexivity.
Qed.

(** X15: what a channel view sends with [join] and [sendPrivMsg], read back
    from the wire in any chunks, is yielded by the view of the same channel:
    a JOIN with the channel and a PRIVMSG with the channel and the text. *)
Theorem channel_sees_own_messages (toLowerCase : jsstring -> jsstring)
    (channel text : jsstring) (chunks : list jsstring) :
  middle channel -> noLF channel -> noLF text ->
  concat chunks =
    concat (RxIRCChannel.sendPrivMsg channel text
              (RxIRCChannel.join channel [])) ->
  RxIRCChannel.messages toLowerCase channel (messages chunks) =
  [{| prefix := None; command := lit "JOIN"; params := [channel] |};
   {| prefix := None; command := lit "PRIVMSG";
      params := [channel; text] |}].
Proof.
  intros Hch Hlf Htext E.
  rewrite (sent_read_back_chunks
             [{| prefix := None; command := lit "JOIN";
                 params := [channel] |};
              {| prefix := None; command := lit "PRIVMSG";
                 params := [channel; text] |}] chunks).
  - unfold RxIRCChannel.messages, RxIRCChannel.channelFilter. simpl.
    rewrite streq_refl. reflexivity.
  - constructor; [| constructor; [| constructor]].
    + split; [solve_middle |]. split; [solve_noLF |].
      exists [], channel. split; [reflexivity |].
      split; [constructor | split; [constructor | exact Hlf]].
    + split; [solve_middle |]. split; [solve_noLF |].
      exists [channel], text. split; [reflexivity |].
      split; [constructor; [exact Hch | constructor] |].
      split; [constructor; [exact Hlf | constructor] | exact Htext].
  - exact E.
Qed.

Lemma channel_sees_own_messages_witness :
  RxIRCChannel.messages RxIRCChannel.asciiLower (lit "#Volte")
    (messages [lit "JOIN  :#Volte" ++ [CR]; [LF] ++ lit "PRIVMSG #Volte :hi";
               lit " all" ++ [CR; LF]]) =
  [{| prefix := None; command := lit "JOIN"; params := [lit "#Volte"] |};
   {| prefix := None; command := lit "PRIVMSG";
      params := [lit "#Volte"; lit "hi all"] |}].
Proof.
  apply (channel_sees_own_messages RxIRCChannel.asciiLower (lit "#Volte")
           (lit "hi all")).
  - solve_middle.
  - solve_noLF.
  - solve_noLF.
  - reflexivity.
Defined.

(** X16: a line of the protocol with a last parameter, parsed and sent
    again, goes out in the form of [send$.next]: without the prefix, with
    one space between the parameters (two after the command when there is
    one parameter only), and the last parameter behind a colon. *)
Theorem parsed_line_sent_again (p : option (jsstring * nat)) (cmd : jsstring)
    (k0 : nat) (toks : list (jsstring * nat)) (e : ending) (t : jsstring) :
  match p with Some (pfx, _) => noSP pfx | None => True end ->
  middle cmd ->
  Forall (fun tk => middle (fst tk)) toks ->
  endingOK e ->
  endingParams e = [t] ->
  exists m,
    parseIRCMessage (wireLine p cmd k0 toks e) = Some m /\
    send_data m = sentLine cmd (map fst toks) t ++ [CR; LF].
Proof.
  intros Hp Hcmd Htoks He Ht.
  rewrite (parseIRCMessage_wireLine p cmd k0 toks e Hp Hcmd Htoks He).
  eexists. split; [reflexivity |].
  destruct toks as [| tk toks]; destruct e as [| t' | t'];
    simpl in Ht; try discriminate Ht; injection Ht as ->;
    apply send_data_sentLine.
Qed.

Lemma parsed_line_sent_again_witness :
  exists m,
    parseIRCMessage
      (wireLine (Some (lit "nick!user@host", 1)) (lit "MODE") 2
                [(lit "#chan", 3)] (LastToken (lit "+o"))) = Some m /\
    send_data m = sentLine (lit "MODE") (map fst [(lit "#chan", 3)]) (lit "+o")
                    ++ [CR; LF].
Proof.
  apply (parsed_line_sent_again (Some (lit "nick!user@host", 1)) (lit "MODE")
           2 [(lit "#chan", 3)] (LastToken (lit "+o")) (lit "+o")).
  - solve_noSP.
  - solve_middle.
  - constructor; [solve_middle | constructor].
  - solve_middle.
  - reflexivity.
Defined.
